(** * ng2-unit-testing-blog: the quote services and the quote component

  A shallow embedding of

  - [src/services/random-number.service.ts] ([RandomNumberService.pick]),
  - the two [QuoteService] variants of the blog post (the local one, which
    picks from an injected list, and the remote one, which maps an HTTP
    response),
  - the two [QuoteComponent]s of the blog post (one per service variant), and
  - [QuoteComponent] of the application, with its two buttons.

  TypeScript's [number] is an IEEE-754 binary64 value; it is modelled by the
  Standard Library's reference model [spec_float] at precision 53, so that
  [Math.random() * (max - min) + min] rounds the way it does when it runs.
  Calls into injected collaborators are threaded through ExtLib's state
  monad: the state is the process-wide random source, or the call log of a
  spy, or the connection log of the mock HTTP backend. *)

From Stdlib Require Import ZArith Lia List String Bool.
From Stdlib Require Import Floats.SpecFloat.
From ExtLib Require Import Structures.Monad Structures.MonadState.
From ExtLib Require Import Data.Monads.StateMonad.
Import ListNotations.
Import MonadNotation.
Local Open Scope monad_scope.
Local Open Scope Z_scope.

(* ===================================================================== *)
(** * JavaScript numbers *)
(* ===================================================================== *)

Module Number.

(** binary64: 53 bits of mantissa, infinities at exponent 1024. *)
Definition prec : Z := 53.
Definition emax : Z := 1024.

Definition number : Type := spec_float.

Definition add : number -> number -> number := SFadd prec emax.
Definition sub : number -> number -> number := SFsub prec emax.
Definition mul : number -> number -> number := SFmul prec emax.

(** An integer literal, or an integer the runtime hands out (an array's
    [length]), as the nearest binary64 value. *)
Definition of_Z (z : Z) : number := binary_normalize prec emax z 0 false.
Definition of_nat (n : nat) : number := of_Z (Z.of_nat n).

(** [Math.floor]: NaN, the infinities and both zeros are returned as they
    are, and so is a value with a non-negative exponent (it is an integer);
    otherwise the mantissa is shifted right, which rounds towards minus
    infinity on the signed mantissa. A positive value below one gives +0. *)
Definition Math_floor (x : number) : number :=
  match x with
  | S754_finite s m e =>
      if 0 <=? e then x
      else binary_normalize prec emax
             (Z.shiftr (cond_Zopp s (Zpos m)) (- e)) 0 s
  | _ => x
  end.

(** The array index a number denotes when it is used as a property key of an
    array: an integer in [0, 2^32 - 1). Anything else (a fraction, a
    negative value, NaN, an infinity) names no element. Both zeros print as
    ["0"]. *)
Definition array_index (x : number) : option nat :=
  match x with
  | S754_zero _ => Some 0%nat
  | S754_finite false m e =>
      let k := Z.shiftr (Zpos m) (- e) in
      if (Z.shiftl k (- e) =? Zpos m) && (k <? 2 ^ 32 - 1)
      then Some (Z.to_nat k) else None
  | _ => None
  end.

(** [a[x]]: the element, or [undefined] ([None]) off the end. *)
Definition array_get {A : Type} (a : list A) (x : number) : option A :=
  match array_index x with
  | Some i => nth_error a i
  | None => None
  end.

(** A value [Math.random()] may return: a valid binary64 in [0, 1). *)
Definition one : number := of_Z 1.
Definition unit_interval (r : number) : bool :=
  valid_binary prec emax r
  && SFleb (S754_zero false) r
  && SFltb r one.

(** The integer a number stands for, when it is one. *)
Definition to_Z (x : number) : option Z :=
  match x with
  | S754_zero _ => Some 0
  | S754_finite s m e =>
      let k := Z.shiftr (Zpos m) (- e) in
      if Z.shiftl k (- e) =? Zpos m then Some (cond_Zopp s k) else None
  | _ => None
  end.

End Number.
Import Number.

(* ===================================================================== *)
(** * RandomNumberService *)
(* ===================================================================== *)

(** The process-wide random source behind [Math.random()]: the values it is
    going to return, and how many have been drawn. *)
Record RandomSource : Type := {
  upcoming : nat -> number;
  drawn : nat
}.

Definition Math_random : state RandomSource number :=
  src <- get ;;
  put {| upcoming := upcoming src; drawn := S (drawn src) |} ;;
  ret (upcoming src (drawn src)).

(** Every value of the source lies in [0, 1). *)
Definition uniform (src : RandomSource) : Prop :=
  forall n, unit_interval (upcoming src n) = true.

(** A random source that returns [r] forever. *)
Definition constant_source (r : number) : RandomSource :=
  {| upcoming := fun _ => r; drawn := 0%nat |}.

(** 0.9999999999999998, that is 1 - 2^-52: the largest value a generator
    that fills 52 mantissa bits returns. *)
Definition almost_one : number := S754_finite false 9007199254740990 (-53).

Module RandomNumberService.

(** [pick(min, max) { return Math.floor(Math.random() * (max - min) + min); }] *)
Definition pick (min max : number) : state RandomSource number :=
  r <- Math_random ;;
  ret (Math_floor (add (mul r (sub max min)) min)).

End RandomNumberService.

(** What a constructor that asks the injector for [RandomNumberService] is
    handed: an object with a [pick] method, running in whatever effect [m] the
    provided class has. *)
Record IRandomNumberService (m : Type -> Type) : Type := {
  pick : number -> number -> m number
}.
Arguments pick {m} _ _ _.

(** The class of [random-number.service.ts], as [index.ts] provides it. *)
Definition theRandomNumberService : IRandomNumberService (state RandomSource) :=
  {| pick := RandomNumberService.pick |}.

(** [jasmine.createSpy('pick')] with a fake implementation: every call is
    recorded with its arguments, in order. [and.returnValue(v)] is the fake
    that ignores its arguments. *)
Definition SpyCalls : Type := list (number * number).

Definition createSpy (fake : number -> number -> number)
  : number -> number -> state SpyCalls number :=
  fun min max =>
    calls <- get ;;
    put (calls ++ [(min, max)]) ;;
    ret (fake min max).

Definition returnValue (v : number) : number -> number -> number :=
  fun _ _ => v.

(** [class StubRandomNumberService { pick: (min, max) => number }], with the
    spy a test assigns to its [pick]. *)
Definition StubRandomNumberService (fake : number -> number -> number)
  : IRandomNumberService (state SpyCalls) :=
  {| pick := createSpy fake |}.

(* ===================================================================== *)
(** * Quotes *)
(* ===================================================================== *)

(** [type IQuote = { text: string, attribution: string }] *)
Record IQuote : Type := {
  text : string;
  attribution : string
}.

(** [type IAPIRecord = { content: string, title: string }] *)
Record IAPIRecord : Type := {
  content : string;
  title : string
}.

(** The ['QUOTE_DATA'] value the service test provides. *)
Definition test_QUOTE_DATA : list IQuote :=
  [ {| text := "Testing is a good thing"; attribution := "Me" |} ].

(* ===================================================================== *)
(** * QuoteService, local variant *)
(* ===================================================================== *)

Module Local.

(** [constructor(private randomNumberService: RandomNumberService,
                 @Inject('QUOTE_DATA') private allQuotes: IQuote[])] *)
Record QuoteService (m : Type -> Type) : Type := {
  randomNumberService : IRandomNumberService m;
  allQuotes : list IQuote
}.
Arguments randomNumberService {m} _.
Arguments allQuotes {m} _.

(** [getQuote() {
       const index = this.randomNumberService.pick(0, this.allQuotes.length);
       return this.allQuotes[index];
     }]
    The result is [None] where JavaScript returns [undefined]. *)
Definition getQuote {m : Type -> Type} {M : Monad m}
  (this : QuoteService m) : m (option IQuote) :=
  index <- pick (randomNumberService this)
             (of_Z 0) (of_nat (List.length (allQuotes this))) ;;
  ret (array_get (allQuotes this) index).

End Local.

(* ===================================================================== *)
(** * Exceptions and observables *)
(* ===================================================================== *)

(** What a JavaScript expression of the services can throw, and what an HTTP
    exchange can fail with. *)
Inductive JSError : Type :=
| TypeError
| SyntaxError
| TransportError (status : Z).

(** A computation that returns ([inr]) or throws ([inl]). *)
Definition Except (A : Type) : Type := (JSError + A)%type.

Module Rx.

(** What one subscription to an observable is delivered: values, then a
    completion or an error. *)
Inductive Observable (A : Type) : Type :=
| Next (value : A) (rest : Observable A)
| Complete
| Error (e : JSError).
Arguments Next {A} _ _.
Arguments Complete {A}.
Arguments Error {A} _.

(** The [map] operator: a projection that throws turns into an error
    notification, after which nothing more is delivered. *)
Fixpoint map {A B : Type} (project : A -> Except B) (source : Observable A)
  : Observable B :=
  match source with
  | Next a rest =>
      match project a with
      | inr b => Next b (map project rest)
      | inl e => Error e
      end
  | Complete => Complete
  | Error e => Error e
  end.

(** The values delivered, in order. *)
Fixpoint values {A : Type} (o : Observable A) : list A :=
  match o with
  | Next a rest => a :: values rest
  | _ => []
  end.

(** The error the delivery ends with, if it ends with one. *)
Fixpoint failure {A : Type} (o : Observable A) : option JSError :=
  match o with
  | Next _ rest => failure rest
  | Complete => None
  | Error e => Some e
  end.

(** One value and a completion, or one error and no value. *)
Definition single_shot {A : Type} (o : Observable A) : bool :=
  match o with
  | Next _ Complete => true
  | Error _ => true
  | _ => false
  end.

End Rx.

(* ===================================================================== *)
(** * The HTTP client *)
(* ===================================================================== *)

(** The part of the framework's [Http] the service and its tests go
    through: [URLSearchParams], [Http.get] and the connection backend. This is
    the framework's behaviour as the tests of the blog post observe it (the
    request's method, its URL with the query appended, the mocked response). *)
Module Http.

Inductive RequestMethod : Type :=
| Get | Post | Put | Delete | Options | Head | Patch.

(** The parameters in insertion order, each with its values. *)
Definition URLSearchParams : Type := list (string * list string).

Definition URLSearchParams_new : URLSearchParams := [].

(** [set(param, val)]: replaces the values of [param], or appends it. *)
Fixpoint set (param val : string) (ps : URLSearchParams) : URLSearchParams :=
  match ps with
  | [] => [(param, [val])]
  | (k, vs) :: rest =>
      if String.eqb k param then (k, [val]) :: rest
      else (k, vs) :: set param val rest
  end.

(** [toString()]: [k=v] joined with [&]. *)
Definition toString (ps : URLSearchParams) : string :=
  String.concat "&"
    (flat_map (fun kv => List.map (fun v => fst kv ++ "=" ++ v) (snd kv)) ps)%string.

(** [{ search }] *)
Record RequestOptionsArgs : Type := {
  search : URLSearchParams
}.

Record Request : Type := {
  method : RequestMethod;
  url : string;
  body : option string
}.

(** A response, by what its [json()] returns or throws; the body is read at
    the type the service declares for it, [IAPIRecord[]]. *)
Record Response : Type := {
  json : Except (list IAPIRecord)
}.

Record ConnectionBackend (m : Type -> Type) : Type := {
  createConnection : Request -> m (Rx.Observable Response)
}.
Arguments createConnection {m} _ _.

(** [new Http(backend, defaultOptions)] *)
Record Http (m : Type -> Type) : Type := {
  _backend : ConnectionBackend m
}.
Arguments _backend {m} _.

(** [http.get(url, options)]: a GET request without a body, whose URL is
    [url] followed by [?] and the query when there is one. *)
Definition get {m : Type -> Type} (this : Http m) (url : string)
  (options : RequestOptionsArgs) : m (Rx.Observable Response) :=
  let query := toString (search options) in
  createConnection (_backend this)
    {| method := Get;
       url := if (String.length query =? 0)%nat then url
              else (url ++ "?" ++ query)%string;
       body := None |}.

(** [MockBackend]: every connection is recorded with its request, and is
    answered the way the test's subscriber to [backend.connections] answers
    it ([respond]). *)
Definition MockBackend (respond : Request -> Rx.Observable Response)
  : ConnectionBackend (state (list Request)) :=
  {| createConnection := fun request =>
       connections <- MonadState.get ;;
       put (connections ++ [request]) ;;
       ret (respond request) |}.

(** [connection.mockRespond(new Response(...))]: the response, then the
    completion. *)
Definition mockRespond (response : Response) : Rx.Observable Response :=
  Rx.Next response Rx.Complete.

End Http.

(* ===================================================================== *)
(** * QuoteService, remote variant *)
(* ===================================================================== *)

Module Remote.

(** [private static URL = 'http://quotesondesign.com/wp-json/posts'] *)
Definition URL : string := "http://quotesondesign.com/wp-json/posts".

(** [constructor(private http: Http)] *)
Record QuoteService (m : Type -> Type) : Type := {
  http : Http.Http m
}.
Arguments http {m} _.

(** [getQuote(): Observable<IQuote> {
       const search = new URLSearchParams();
       search.set('filter[orderby]', 'rand');
       return this.http.get(QuoteService.URL, { search })
         .map<IAPIRecord[]>(response => response.json())
         .map<IAPIRecord>(records => records[0])
         .map<IQuote>(record => ({
             text: record.content, attribution: record.title }));
     }]
    [records[0]] of an empty array is [undefined] ([None]); reading
    [content] off [undefined] throws a [TypeError]. *)
Definition getQuote {m : Type -> Type} {M : Monad m}
  (this : QuoteService m) : m (Rx.Observable IQuote) :=
  let search := Http.set "filter[orderby]" "rand" Http.URLSearchParams_new in
  responses <- Http.get (http this) URL {| Http.search := search |} ;;
  ret (Rx.map (fun record : option IAPIRecord =>
                 match record with
                 | Some r => inr {| text := content r; attribution := title r |}
                 | None => inl TypeError
                 end)
        (Rx.map (fun records : list IAPIRecord => inr (nth_error records 0))
          (Rx.map (fun response : Http.Response => Http.json response)
             responses))).

(** The service over the mock backend, as the tests build it. *)
Definition mocked (respond : Http.Request -> Rx.Observable Http.Response)
  : QuoteService (state (list Http.Request)) :=
  {| http := {| Http._backend := Http.MockBackend respond |} |}.

End Remote.

(** The request of [getQuote()]. *)
Definition quote_request : Http.Request :=
  {| Http.method := Http.Get;
     Http.url := "http://quotesondesign.com/wp-json/posts?filter[orderby]=rand";
     Http.body := None |}.

(** The three [map]s of [getQuote()], on what the HTTP client delivers. *)
Definition to_quotes (responses : Rx.Observable Http.Response)
  : Rx.Observable IQuote :=
  Rx.map (fun record : option IAPIRecord =>
            match record with
            | Some r => inr {| text := content r; attribution := title r |}
            | None => inl TypeError
            end)
    (Rx.map (fun records : list IAPIRecord => inr (nth_error records 0))
       (Rx.map (fun response : Http.Response => Http.json response)
          responses)).

(* ===================================================================== *)
(** * QuoteComponent *)
(* ===================================================================== *)

(** The [QuoteService] the application's component is given: its two
    methods, in whatever effect the provided service runs. *)
Module QuoteServiceApi.

Record t (m : Type -> Type) : Type := {
  getRandomQuote : m (option IQuote);
  getRemoteQuote : m (Rx.Observable IQuote)
}.
Arguments getRandomQuote {m} _.
Arguments getRemoteQuote {m} _.

(** The calls a spying service has received, oldest first. *)
Inductive Call : Type := GetRandomQuote | GetRemoteQuote.

(** A spy: it records each call and answers it from the number of calls
    received before it. *)
Definition spy (randomAnswer : nat -> option IQuote)
  (remoteAnswer : nat -> Rx.Observable IQuote) : t (state (list Call)) :=
  {| getRandomQuote :=
       calls <- get ;;
       put (calls ++ [GetRandomQuote]) ;;
       ret (randomAnswer (List.length calls));
     getRemoteQuote :=
       calls <- get ;;
       put (calls ++ [GetRemoteQuote]) ;;
       ret (remoteAnswer (List.length calls)) |}.

End QuoteServiceApi.

(** The application's component ([quote.component.ts]). *)
Module App.

(** [randomQuote: IQuote; remoteText$: Observable<String>;
     remoteAttribution$: Observable<String>]; a field that has not been
    assigned is [None]. *)
Record QuoteComponent : Type := {
  randomQuote : option IQuote;
  remoteText : option (Rx.Observable string);
  remoteAttribution : option (Rx.Observable string)
}.

(** [getRandomQuote() { this.randomQuote = this.quoteService.getRandomQuote(); }] *)
Definition getRandomQuote {m : Type -> Type} {M : Monad m}
  (quoteService : QuoteServiceApi.t m) (this : QuoteComponent)
  : m QuoteComponent :=
  quote <- QuoteServiceApi.getRandomQuote quoteService ;;
  ret {| randomQuote := quote;
         remoteText := remoteText this;
         remoteAttribution := remoteAttribution this |}.

(** [getRemoteQuote() {
       const quote$ = this.quoteService.getRemoteQuote();
       this.remoteText$ = quote$.map(quote => quote.text);
       this.remoteAttribution$ = quote$.map(quote => quote.attribution);
     }] *)
Definition getRemoteQuote {m : Type -> Type} {M : Monad m}
  (quoteService : QuoteServiceApi.t m) (this : QuoteComponent)
  : m QuoteComponent :=
  quotes <- QuoteServiceApi.getRemoteQuote quoteService ;;
  ret {| randomQuote := randomQuote this;
         remoteText := Some (Rx.map (fun quote => inr (text quote)) quotes);
         remoteAttribution :=
           Some (Rx.map (fun quote => inr (attribution quote)) quotes) |}.

(** [constructor (private quoteService: QuoteService) {
       this.getRandomQuote();
       this.getRemoteQuote();
     }] *)
Definition constructor {m : Type -> Type} {M : Monad m}
  (quoteService : QuoteServiceApi.t m) : m QuoteComponent :=
  this <- getRandomQuote quoteService
            {| randomQuote := None; remoteText := None;
               remoteAttribution := None |} ;;
  getRemoteQuote quoteService this.

(** The two buttons of the template. *)
Inductive Click : Type := ClickRandomQuote | ClickRemoteQuote.

Definition handle {m : Type -> Type} {M : Monad m}
  (quoteService : QuoteServiceApi.t m) (click : Click) (this : QuoteComponent)
  : m QuoteComponent :=
  match click with
  | ClickRandomQuote => getRandomQuote quoteService this
  | ClickRemoteQuote => getRemoteQuote quoteService this
  end.

Fixpoint handle_all {m : Type -> Type} {M : Monad m}
  (quoteService : QuoteServiceApi.t m) (clicks : list Click)
  (this : QuoteComponent) : m QuoteComponent :=
  match clicks with
  | [] => ret this
  | click :: later =>
      this' <- handle quoteService click this ;;
      handle_all quoteService later this'
  end.

(** The service call a click leads to. *)
Definition call_of (click : Click) : QuoteServiceApi.Call :=
  match click with
  | ClickRandomQuote => QuoteServiceApi.GetRandomQuote
  | ClickRemoteQuote => QuoteServiceApi.GetRemoteQuote
  end.

(** A component's life: construction, then the clicks. *)
Definition session {m : Type -> Type} {M : Monad m}
  (quoteService : QuoteServiceApi.t m) (clicks : list Click)
  : m QuoteComponent :=
  this <- constructor quoteService ;;
  handle_all quoteService clicks this.

End App.

(* ===================================================================== *)
(** * The components of the blog post *)
(* ===================================================================== *)

(** A quote service with the single method [getQuote()], as the components
    of the blog post use it; [R] is what the method returns. *)
Module QuoteServiceOf.

Record t (m : Type -> Type) (R : Type) : Type := {
  getQuote : m R
}.
Arguments getQuote {m R} _.

(** The local service as the component's provider. *)
Definition local {m : Type -> Type} {M : Monad m}
  (service : Local.QuoteService m) : t m (option IQuote) :=
  {| getQuote := Local.getQuote service |}.

(** The remote service as the component's provider. *)
Definition remote {m : Type -> Type} {M : Monad m}
  (service : Remote.QuoteService m) : t m (Rx.Observable IQuote) :=
  {| getQuote := Remote.getQuote service |}.

(** A spy that counts the calls and answers each from its number. *)
Definition spy {R : Type} (answer : nat -> R) : t (state nat) R :=
  {| getQuote :=
       calls <- get ;;
       put (S calls) ;;
       ret (answer calls) |}.

End QuoteServiceOf.

(** The component with the synchronous service:
    [quote: IQuote;
     constructor (private quoteService: QuoteService) { this.getQuote(); }
     getQuote() { this.quote = this.quoteService.getQuote(); }] *)
Module BlogSync.

Record QuoteComponent : Type := {
  quote : option IQuote
}.

Definition getQuote {m : Type -> Type} {M : Monad m}
  (quoteService : QuoteServiceOf.t m (option IQuote)) (this : QuoteComponent)
  : m QuoteComponent :=
  q <- QuoteServiceOf.getQuote quoteService ;;
  ret {| quote := q |}.

Definition constructor {m : Type -> Type} {M : Monad m}
  (quoteService : QuoteServiceOf.t m (option IQuote)) : m QuoteComponent :=
  getQuote quoteService {| quote := None |}.

(** [n] clicks on the button, each of which runs [getQuote()]. *)
Fixpoint clicks {m : Type -> Type} {M : Monad m}
  (quoteService : QuoteServiceOf.t m (option IQuote)) (n : nat)
  (this : QuoteComponent) : m QuoteComponent :=
  match n with
  | O => ret this
  | S k =>
      this' <- getQuote quoteService this ;;
      clicks quoteService k this'
  end.

Definition session {m : Type -> Type} {M : Monad m}
  (quoteService : QuoteServiceOf.t m (option IQuote)) (n : nat)
  : m QuoteComponent :=
  this <- constructor quoteService ;;
  clicks quoteService n this.

End BlogSync.

(** The component with the asynchronous service:
    [text$: Observable<String>; attribution$: Observable<String>;
     constructor (private quoteService: QuoteService) { this.getQuote(); }
     getQuote() {
       const quote$ = this.quoteService.getQuote();
       this.text$ = quote$.map(quote => quote.text);
       this.attribution$ = quote$.map(quote => quote.attribution);
     }]
    The fields [text$] and [attribution$] are [text'] and [attribution']. *)
Module BlogAsync.

Record QuoteComponent : Type := {
  text' : option (Rx.Observable string);
  attribution' : option (Rx.Observable string)
}.

Definition getQuote {m : Type -> Type} {M : Monad m}
  (quoteService : QuoteServiceOf.t m (Rx.Observable IQuote))
  (this : QuoteComponent) : m QuoteComponent :=
  quotes <- QuoteServiceOf.getQuote quoteService ;;
  ret {| text' := Some (Rx.map (fun quote => inr (text quote)) quotes);
         attribution' :=
           Some (Rx.map (fun quote => inr (attribution quote)) quotes) |}.

Definition constructor {m : Type -> Type} {M : Monad m}
  (quoteService : QuoteServiceOf.t m (Rx.Observable IQuote))
  : m QuoteComponent :=
  getQuote quoteService {| text' := None; attribution' := None |}.

Fixpoint clicks {m : Type -> Type} {M : Monad m}
  (quoteService : QuoteServiceOf.t m (Rx.Observable IQuote)) (n : nat)
  (this : QuoteComponent) : m QuoteComponent :=
  match n with
  | O => ret this
  | S k =>
      this' <- getQuote quoteService this ;;
      clicks quoteService k this'
  end.

Definition session {m : Type -> Type} {M : Monad m}
  (quoteService : QuoteServiceOf.t m (Rx.Observable IQuote)) (n : nat)
  : m QuoteComponent :=
  this <- constructor quoteService ;;
  clicks quoteService n this.

End BlogAsync.

(** What the three [map]s of the remote [getQuote()] do to one response, in
    one step. *)
Definition quote_of_response (response : Http.Response) : Except IQuote :=
  match Http.json response with
  | inl e => inl e
  | inr [] => inl TypeError
  | inr (record :: _) =>
      inr {| text := content record; attribution := title record |}
  end.

(** The position of the last [call] in a log that starts at position
    [base]. *)
Fixpoint last_call (call : QuoteServiceApi.Call)
  (calls : list QuoteServiceApi.Call) (base : nat) : option nat :=
  match calls with
  | [] => None
  | c :: later =>
      match last_call call later (S base) with
      | Some p => Some p
      | None =>
          match c, call with
          | QuoteServiceApi.GetRandomQuote, QuoteServiceApi.GetRandomQuote
          | QuoteServiceApi.GetRemoteQuote, QuoteServiceApi.GetRemoteQuote =>
              Some base
          | _, _ => None
          end
      end
  end.

(** The fields of the application's component show the answers to the
    latest call of each method of a spied service. *)
Definition shows_latest (randomAnswer : nat -> option IQuote)
  (remoteAnswer : nat -> Rx.Observable IQuote)
  (this : App.QuoteComponent) (calls : list QuoteServiceApi.Call) : Prop :=
  (exists p,
      last_call QuoteServiceApi.GetRandomQuote calls 0 = Some p
      /\ App.randomQuote this = randomAnswer p)
  /\ (exists p,
        last_call QuoteServiceApi.GetRemoteQuote calls 0 = Some p
        /\ App.remoteText this
           = Some (Rx.map (fun quote => inr (text quote)) (remoteAnswer p))
        /\ App.remoteAttribution this
           = Some (Rx.map (fun quote => inr (attribution quote))
                     (remoteAnswer p))).

(** [x] is a zero or a positive value with a non-positive exponent, and its
    value lies between the integers [lo] and [hi]. *)
Definition between (lo hi : Z) (x : number) : Prop :=
  (lo <= 0 <= hi /\ exists s, x = S754_zero s)
  \/ exists m e, x = S754_finite false m e
                 /\ e <= 0 /\ lo * 2 ^ (- e) <= Zpos m <= hi * 2 ^ (- e).

(** [x] is a zero, or a value of either sign with a non-positive exponent,
    and its value lies between the integers [lo] and [hi]. *)
Definition sbetween (lo hi : Z) (x : number) : Prop :=
  (lo <= 0 <= hi /\ exists s, x = S754_zero s)
  \/ exists s m e, x = S754_finite s m e
                   /\ e <= 0
                   /\ lo * 2 ^ (- e) <= cond_Zopp s (Zpos m) <= hi * 2 ^ (- e).

(* ===================================================================== *)
(** * Rounding, step by step *)
(* ===================================================================== *)

(** [mrs] is what is left of [m0] after [t] right shifts: the quotient, and
    a round bit that is set only when the part shifted out is at least half
    a unit. *)
Definition shifted (m0 t : Z) (mrs : shr_record) : Prop :=
  shr_m mrs = m0 / 2 ^ t /\
  (shr_r mrs = true -> 0 < t /\ 2 ^ (t - 1) <= m0 mod 2 ^ t).

(* ===================================================================== *)
(** * Facts about binary64 rounding *)
(* ===================================================================== *)

Lemma digits2_pos_size (p : positive) : digits2_pos p = Pos.size p.
Proof. induction p; simpl; congruence. Qed.

Lemma digits2_pos_bounds (p : positive) :
  2 ^ (Zpos (digits2_pos p) - 1) <= Zpos p < 2 ^ Zpos (digits2_pos p).
Proof.
  rewrite digits2_pos_size. split.
  - pose proof (Pos.size_le p) as H.
    apply Pos2Z.pos_le_pos in H. rewrite Pos2Z.inj_pow in H.
    replace (Zpos (Pos.size p)) with (Zpos (Pos.size p) - 1 + 1) in H by lia.
    rewrite Z.pow_add_r in H by lia. change (Zpos p~0) with (2 * Zpos p) in H. lia.
  - pose proof (Pos.size_gt p) as H.
    apply Pos2Z.pos_lt_pos in H. rewrite Pos2Z.inj_pow in H. exact H.
Qed.

Lemma iter_pos_count {A : Type} (f : A -> A) (P : Z -> A -> Prop) :
  (forall t x, 0 <= t -> P t x -> P (t + 1) (f x)) ->
  forall p t x, 0 <= t -> P t x -> P (t + Zpos p) (iter_pos f p x).
Proof.
  intros step. induction p as [p IH | p IH |]; intros t x Ht Hx; simpl.
  - replace (t + Zpos p~1) with (t + 1 + Zpos p + Zpos p) by lia.
    apply IH; [lia|]. apply IH; [lia|]. now apply step.
  - replace (t + Zpos p~0) with (t + Zpos p + Zpos p) by lia.
    apply IH; [lia|]. now apply IH.
  - now apply step.
Qed.

Lemma shr_1_m (mrs : shr_record) :
  0 <= shr_m mrs ->
  shr_m (shr_1 mrs) = shr_m mrs / 2 /\ shr_r (shr_1 mrs) = Z.odd (shr_m mrs).
Proof.
  destruct mrs as [M r s]; simpl. intros HM.
  destruct M as [| [p | p |] | p]; simpl; try lia; split; try reflexivity.
  - rewrite Pos2Z.inj_xI. apply Z.div_unique with (r := 1); lia.
  - rewrite Pos2Z.inj_xO. apply Z.div_unique with (r := 0); lia.
Qed.

Lemma shifted_step (m0 t : Z) (mrs : shr_record) :
  0 <= m0 -> 0 <= t -> shifted m0 t mrs -> shifted m0 (t + 1) (shr_1 mrs).
Proof.
  intros Hm Ht [HM _].
  assert (Hpow : 0 < 2 ^ t) by (apply Z.pow_pos_nonneg; lia).
  assert (HM0 : 0 <= shr_m mrs) by (rewrite HM; apply Z.div_pos; lia).
  destruct (shr_1_m mrs HM0) as [Hq Hr]. split.
  - rewrite Hq, HM, Z.pow_add_r, Z.pow_1_r by lia.
    rewrite Z.div_div by lia. reflexivity.
  - rewrite Hr. intros Hodd. split; [lia|].
    replace (t + 1 - 1) with t by lia.
    rewrite Z.pow_add_r, Z.pow_1_r by lia.
    rewrite Z.rem_mul_r by lia.
    rewrite <- HM. rewrite Zmod_odd, Hodd.
    pose proof (Z.mod_pos_bound m0 (2 ^ t) Hpow). lia.
Qed.

Lemma shr_shifted (m e n : Z) :
  0 <= m ->
  let '(mrs, e') := shr (shr_record_of_loc m loc_Exact) e n in
  e' = e + Z.max n 0 /\ shifted m (Z.max n 0) mrs /\
  (shr_r mrs = true -> 0 < n).
Proof.
  intros Hm. unfold shr. simpl.
  assert (H0 : shifted m 0 {| shr_m := m; shr_r := false; shr_s := false |}).
  { split; simpl; [rewrite Z.div_1_r; reflexivity | discriminate]. }
  destruct n as [| p | p]; simpl.
  - repeat split; try lia; try apply H0; discriminate.
  - split; [reflexivity|]. split; [|lia].
    change (Zpos p) with (0 + Zpos p).
    apply (iter_pos_count shr_1 (shifted m)); trivial; try lia.
    intros t x Ht Hx. now apply shifted_step.
  - repeat split; try lia; try apply H0; discriminate.
Qed.

Lemma round_nearest_even_cases (mrs : shr_record) :
  let m' := round_nearest_even (shr_m mrs) (loc_of_shr_record mrs) in
  m' = shr_m mrs \/ (m' = shr_m mrs + 1 /\ shr_r mrs = true).
Proof.
  destruct mrs as [M [|] [|]]; simpl; auto.
  destruct (Z.even M); auto.
Qed.

Lemma fexp_binary64 (z : Z) : fexp prec emax z = Z.max (z - 53) (-1074).
Proof. unfold fexp, emin, prec, emax. lia. Qed.

Lemma Zdigits2_bounds (m : Z) :
  0 < m -> 2 ^ (Zdigits2 m - 1) <= m < 2 ^ Zdigits2 m.
Proof.
  destruct m as [| p | p]; try lia. intros _. apply digits2_pos_bounds.
Qed.

Lemma pow2_pos (k : Z) : 0 <= k -> 0 < 2 ^ k.
Proof. intros. apply Z.pow_pos_nonneg; lia. Qed.

Lemma pow2_lt_inv (a b : Z) : 0 <= b -> 2 ^ a < 2 ^ b -> a < b.
Proof. intros Hb H. apply (Z.pow_lt_mono_r_iff 2); lia. Qed.

(** The arithmetic behind [binary_round_aux_below]. [m / 2^k] is the exact
    value, [sh] the number of bits shifted out, [K = k - sh] the scale of
    the result. *)
Lemma shifted_below (m B K sh : Z) :
  0 < m -> 0 < B -> 0 <= K -> 0 <= sh ->
  m * 2 ^ 53 <= B * (2 ^ 53 - 1) * 2 ^ (K + sh) ->
  m / 2 ^ sh < B * 2 ^ K.
Proof.
  intros Hm HB HK Hsh H.
  pose proof (pow2_pos K HK). pose proof (pow2_pos sh Hsh).
  rewrite Z.pow_add_r in H by lia.
  apply Z.div_lt_upper_bound; [lia|].
  assert (B * (2 ^ 53 - 1) * (2 ^ K * 2 ^ sh) < B * 2 ^ 53 * (2 ^ K * 2 ^ sh)) by nia.
  nia.
Qed.

Lemma rounded_up_below (m B K sh : Z) :
  0 < m -> 0 < B -> 0 <= K -> 0 < sh ->
  m * 2 ^ 53 <= B * (2 ^ 53 - 1) * 2 ^ (K + sh) ->
  2 ^ (sh - 1) <= m mod 2 ^ sh ->
  2 ^ 52 <= m / 2 ^ sh \/ 2 ^ 52 < B * 2 ^ K ->
  m / 2 ^ sh + 1 < B * 2 ^ K.
Proof.
  intros Hm HB HK Hsh H Hhalf Hbig.
  pose proof (shifted_below m B K sh Hm HB HK ltac:(lia) H) as Hlt.
  pose proof (pow2_pos K HK) as HpK.
  pose proof (pow2_pos (sh - 1) ltac:(lia)) as HpP.
  assert (E2 : 2 ^ sh = 2 * 2 ^ (sh - 1)).
  { replace sh with (1 + (sh - 1)) at 1 by lia.
    rewrite Z.pow_add_r, Z.pow_1_r by lia. reflexivity. }
  rewrite Z.pow_add_r in H by lia.
  pose proof (Z.div_mod m (2 ^ sh) ltac:(lia)) as Hdm.
  set (q := m / 2 ^ sh) in *. set (rm := m mod 2 ^ sh) in *.
  set (Q := B * 2 ^ K) in *. set (P := 2 ^ (sh - 1)) in *.
  rewrite E2 in *.
  destruct (Z.eq_dec (q + 1) Q) as [Heq|]; [exfalso | lia].
  assert (Hge : (2 * P * (Q - 1) + P) * 2 ^ 53 <= m * 2 ^ 53) by nia.
  assert (Hle : m * 2 ^ 53 <= Q * (2 ^ 53 - 1) * (2 * P)).
  { unfold Q. replace (B * 2 ^ K * (2 ^ 53 - 1) * (2 * P))
      with (B * (2 ^ 53 - 1) * (2 ^ K * (2 * P))) by ring. exact H. }
  assert (HQ : 2 * Q <= 2 ^ 53) by nia.
  change (2 ^ 53) with (2 * 2 ^ 52) in HQ.
  lia.
Qed.

(** Rounding a positive value [m * 2^e] that is at most [B * (1 - 2^-53)],
    for an integer [B] up to 2^53, stays strictly below [B]. *)
Lemma binary_round_aux_below (m : positive) (e B : Z) :
  e <= 0 -> 0 < B <= 2 ^ 53 ->
  Zpos m * 2 ^ 53 <= B * (2 ^ 53 - 1) * 2 ^ (- e) ->
  binary_round_aux prec emax false (Zpos m) e loc_Exact = S754_zero false \/
  exists m' e',
    binary_round_aux prec emax false (Zpos m) e loc_Exact
      = S754_finite false m' e'
    /\ e' <= 0 /\ Zpos m' < B * 2 ^ (- e').
Proof.
  intros He HB H.
  unfold binary_round_aux, shr_fexp.
  rewrite !fexp_binary64.
  set (d := Zdigits2 (Zpos m)).
  pose proof (Zdigits2_bounds (Zpos m) ltac:(lia)) as Hd. fold d in Hd.
  set (n1 := Z.max (d + e - 53) (-1074) - e).
  pose proof (shr_shifted (Zpos m) e n1 ltac:(lia)) as S1.
  destruct (shr (shr_record_of_loc (Zpos m) loc_Exact) e n1) as [mrs1 e1].
  destruct S1 as (He1 & [Hm1 Hr1] & Hn1).
  pose proof (round_nearest_even_cases mrs1) as Hrne. simpl in Hrne.
  set (m2 := round_nearest_even (shr_m mrs1) (loc_of_shr_record mrs1)) in *.
  set (sh := Z.max n1 0) in *.
  assert (HdE : d + e <= 53).
  { assert (Hlt : Zpos m * 2 ^ 53 < 2 ^ (53 - e) * 2 ^ 53).
    { replace (53 - e) with (53 + - e) by lia. rewrite Z.pow_add_r by lia.
      pose proof (pow2_pos (- e) ltac:(lia)). nia. }
    assert (Hlt' : 2 ^ (d - 1) < 2 ^ (53 - e)) by nia.
    apply pow2_lt_inv in Hlt'; lia. }
  set (K := - e1).
  assert (HK : 0 <= K) by (unfold K, sh, n1 in *; lia).
  assert (Hk : - e = K + sh) by (unfold K; lia).
  rewrite Hk in H.
  assert (Hm2 : 0 <= m2 < B * 2 ^ K).
  { destruct Hrne as [-> | [-> Hr]]; rewrite Hm1.
    - split; [apply Z.div_pos; [lia | apply pow2_pos; lia] |].
      apply shifted_below; lia.
    - destruct (Hr1 Hr) as [Hsh Hhalf].
      split.
      + pose proof (Z.div_pos (Zpos m) (2 ^ sh) ltac:(lia) (pow2_pos sh ltac:(lia))).
        lia.
      + apply rounded_up_below; try lia.
        destruct (Z.max_spec (d + e - 53) (-1074)) as [[Hc Hmax] | [Hc Hmax]].
        * right. assert (HK' : K = 1074) by (unfold K, sh, n1 in *; lia).
          rewrite HK'.
          assert (2 ^ 52 < 2 ^ 1074) by (apply Z.pow_lt_mono_r; lia). nia.
        * left. assert (Hsh' : sh = d - 53) by (unfold sh, n1 in *; lia).
          rewrite Hsh'. apply Z.div_le_lower_bound; [apply pow2_pos; lia|].
          rewrite <- Z.pow_add_r by lia.
          replace (d - 53 + 52) with (d - 1) by lia. lia. }
  rewrite fexp_binary64.
  set (d2 := Zdigits2 m2).
  set (n2 := Z.max (d2 + e1 - 53) (-1074) - e1).
  pose proof (shr_shifted m2 e1 n2 (proj1 Hm2)) as S2.
  destruct (shr (shr_record_of_loc m2 loc_Exact) e1 n2) as [mrs2 e2].
  destruct S2 as (He2 & [Hm3 _] & _).
  set (sh2 := Z.max n2 0) in *.
  assert (Hsh2 : 0 <= sh2) by (clear; unfold sh2; lia).
  pose proof (pow2_pos sh2 Hsh2) as Hp2.
  destruct (shr_m mrs2) as [| m3 | m3] eqn:E3.
  - left; reflexivity.
  - right. exists m3, e2.
    assert (Hpos2 : 0 < m2).
    { destruct (Z.eq_dec m2 0) as [Hz | Hnz]; [|clear - Hm2 Hnz; lia].
      rewrite Hz, Z.div_0_l in Hm3; clear - Hm3 Hp2; lia. }
    pose proof (Zdigits2_bounds m2 Hpos2) as Hd2. fold d2 in Hd2.
    assert (Hd2E : d2 + e1 <= 53).
    { assert (Hlt : 2 ^ (d2 - 1) < 2 ^ (53 + K)).
      { rewrite Z.pow_add_r by (clear - HK; lia).
        pose proof (pow2_pos K HK) as HpK.
        apply Z.le_lt_trans with m2; [apply Hd2|].
        apply Z.lt_le_trans with (B * 2 ^ K); [apply Hm2|].
        apply Z.mul_le_mono_nonneg_r; [clear - HpK; lia | apply HB]. }
      apply pow2_lt_inv in Hlt; [|clear - HK; lia].
      clear - Hlt. unfold K in Hlt. lia. }
    assert (He2' : e2 <= 0).
    { clear - He2 Hd2E HK. unfold sh2, n2, K in *. lia. }
    assert (HKs : K = - e2 + sh2) by (clear - He2; unfold K; lia).
    replace (e2 <=? emax - prec) with true
      by (symmetry; apply Z.leb_le; clear - He2'; unfold emax, prec; lia).
    repeat split; trivial.
    rewrite Hm3. apply Z.div_lt_upper_bound; [exact Hp2|].
    replace (2 ^ sh2 * (B * 2 ^ (- e2))) with (B * 2 ^ K).
    + apply Hm2.
    + rewrite HKs, Z.pow_add_r by (clear - He2' Hsh2; lia). ring.
  - exfalso.
    pose proof (Z.div_pos m2 (2 ^ sh2) (proj1 Hm2) Hp2) as Hnn.
    clear - Hnn Hm3. lia.
Qed.

Lemma iter_xO (p n : positive) :
  Zpos (Pos.iter xO p n) = Zpos p * 2 ^ Zpos n /\
  digits2_pos (Pos.iter xO p n) = (digits2_pos p + n)%positive.
Proof.
  apply (Pos.iter_ind positive xO p
           (fun n q => Zpos q = Zpos p * 2 ^ Zpos n /\
                       digits2_pos q = (digits2_pos p + n)%positive)).
  - split; [rewrite Z.pow_1_r; lia | simpl; lia].
  - intros k q [Hq Hd]. split.
    + rewrite Pos2Z.inj_xO, Hq, Pos2Z.inj_succ, Z.pow_succ_r by lia. ring.
    + simpl. rewrite Hd. lia.
Qed.

(** Rounding a mantissa that already fits changes nothing. *)
Lemma binary_round_aux_canonical (s : bool) (m : positive) (e : Z) :
  bounded prec emax m e = true ->
  binary_round_aux prec emax s (Zpos m) e loc_Exact = S754_finite s m e.
Proof.
  unfold bounded, canonical_mantissa. intros Hb.
  apply andb_true_iff in Hb. destruct Hb as [Hc He].
  apply Z.eqb_eq in Hc.
  unfold binary_round_aux, shr_fexp.
  change (Zdigits2 (Zpos m)) with (Zpos (digits2_pos m)).
  rewrite Hc, Z.sub_diag.
  cbn [shr shr_record_of_loc shr_m loc_of_shr_record round_nearest_even].
  change (Zdigits2 (Zpos m)) with (Zpos (digits2_pos m)).
  rewrite Hc, Z.sub_diag.
  cbn [shr shr_record_of_loc shr_m].
  rewrite He. reflexivity.
Qed.

(** A positive integer below 2^53 is a binary64 value. *)
Lemma of_Z_exact (z : Z) :
  0 < z < 2 ^ 53 ->
  exists m e, of_Z z = S754_finite false m e /\
              e <= 0 /\ Zpos m = z * 2 ^ (- e).
Proof.
  intros Hz. destruct z as [| p | p]; try lia.
  unfold of_Z, binary_normalize, binary_round.
  rewrite fexp_binary64.
  pose proof (digits2_pos_bounds p) as Hd.
  set (d := Zpos (digits2_pos p)) in *.
  assert (Hd53 : d <= 53).
  { assert (Hlt : 2 ^ (d - 1) < 2 ^ 53) by lia.
    apply pow2_lt_inv in Hlt; lia. }
  assert (Hd1 : 1 <= d) by (unfold d; lia).
  unfold shl_align.
  replace (Z.max (d + 0 - 53) (-1074) - 0) with (d - 53) by lia.
  replace (Z.max (d + 0 - 53) (-1074)) with (d - 53) by lia.
  destruct (d - 53) as [| k | k] eqn:Ek; try lia.
  - exists p, 0. rewrite binary_round_aux_canonical.
    + repeat split; rewrite ?Z.pow_0_r; lia.
    + unfold bounded, canonical_mantissa. rewrite fexp_binary64. fold d.
      apply andb_true_iff. split; [apply Z.eqb_eq | apply Z.leb_le];
        unfold emax, prec; lia.
  - destruct (iter_xO p k) as [Hv Hdg].
    exists (Pos.iter xO p k), (Zneg k). rewrite binary_round_aux_canonical.
    + repeat split; try lia. rewrite Hv. reflexivity.
    + unfold bounded, canonical_mantissa. rewrite fexp_binary64, Hdg.
      rewrite Pos2Z.inj_add. fold d.
      apply andb_true_iff. split; [apply Z.eqb_eq | apply Z.leb_le];
        unfold emax, prec; lia.
Qed.

(** Reading back, as an array index, a value whose mantissa is an integer
    scaled by its exponent. *)
Lemma array_index_scaled (m : positive) (e z : Z) :
  e <= 0 -> Zpos m = z * 2 ^ (- e) -> z < 2 ^ 32 - 1 ->
  array_index (S754_finite false m e) = Some (Z.to_nat z).
Proof.
  intros He Hm Hz. unfold array_index.
  pose proof (pow2_pos (- e) ltac:(lia)) as Hp.
  assert (Hk : Z.shiftr (Zpos m) (- e) = z).
  { rewrite Z.shiftr_div_pow2, Hm by lia. apply Z.div_mul. lia. }
  rewrite Hk, Z.shiftl_mul_pow2, <- Hm, Z.eqb_refl by lia.
  apply Z.ltb_lt in Hz. rewrite Hz. reflexivity.
Qed.

Lemma array_index_of_Z (z : Z) :
  0 <= z < 2 ^ 32 - 1 -> array_index (of_Z z) = Some (Z.to_nat z).
Proof.
  intros Hz. destruct (Z.eq_dec z 0) as [-> | Hnz]; [reflexivity|].
  destruct (of_Z_exact z) as (m & e & -> & He & Hm); [lia|].
  apply array_index_scaled; trivial; lia.
Qed.

Lemma compare_cont_Eq_Lt (p q : positive) :
  Pos.compare_cont Eq p q = Lt -> Zpos p < Zpos q.
Proof. intros H. exact H. Qed.

Lemma one_eq : one = S754_finite false 4503599627370496 (-52).
Proof. vm_compute. reflexivity. Qed.

(** What [Math.random()] can return: a zero, or a positive value whose
    exponent is at most -53 (so that it is at most 1 - 2^-53). *)
Lemma unit_interval_cases (r : number) :
  unit_interval r = true ->
  (exists s, r = S754_zero s) \/
  (exists m e, r = S754_finite false m e /\ e <= -53 /\ Zpos m < 2 ^ 53).
Proof.
  unfold unit_interval. rewrite one_eq. intros H.
  apply andb_true_iff in H. destruct H as [H Hlt].
  apply andb_true_iff in H. destruct H as [Hv Hle].
  destruct r as [s | s | | s m e]; try (destruct s; discriminate);
    try discriminate.
  - left. exists s. reflexivity.
  - right. destruct s; [discriminate|]. exists m, e. split; [reflexivity|].
    simpl in Hv. unfold bounded, canonical_mantissa in Hv.
    apply andb_true_iff in Hv. destruct Hv as [Hc _].
    apply Z.eqb_eq in Hc. rewrite fexp_binary64 in Hc.
    pose proof (digits2_pos_bounds m) as Hd.
    set (d := Zpos (digits2_pos m)) in *.
    assert (Hd53 : d <= 53) by lia.
    assert (Hm : Zpos m < 2 ^ 53).
    { apply Z.lt_le_trans with (2 ^ d); [lia|].
      apply Z.pow_le_mono_r; lia. }
    split; [|exact Hm].
    unfold SFltb, SFcompare in Hlt.
    destruct (Z.compare_spec e (-52)) as [He | He | He]; try lia.
    exfalso. subst e.
    assert (Hd' : d = 53) by lia.
    rewrite Hd' in Hd.
    destruct (Pos.compare_cont Eq m 4503599627370496) eqn:Hcmp;
      try discriminate.
    apply compare_cont_Eq_Lt in Hcmp.
    destruct Hd as [Hd _]. clear - Hd Hcmp.
    assert (E : 2 ^ (53 - 1) = 4503599627370496) by (vm_compute; reflexivity).
    rewrite E in Hd.
    apply (Z.lt_irrefl (Zpos m)).
    eapply Z.lt_le_trans; [exact Hcmp | exact Hd].
Qed.

(** The index [Math.floor(r * (n - 0) + 0)] for [r] in [0, 1) and an array
    length [n >= 1]: an integer below [n]. *)
Lemma floor_scaled_index (r : number) (n : nat) :
  unit_interval r = true -> (0 < n)%nat -> Z.of_nat n <= 2 ^ 32 - 1 ->
  exists i,
    array_index
      (Math_floor (add (mul r (sub (of_nat n) (of_Z 0))) (of_Z 0))) = Some i
    /\ (i < n)%nat.
Proof.
  intros Hr Hn Hmax.
  assert (H32 : 2 ^ 32 - 1 < 2 ^ 53) by (vm_compute; reflexivity).
  destruct (of_Z_exact (Z.of_nat n)) as (mN & eN & HN & HeN & HmN); [lia|].
  unfold of_nat. rewrite HN.
  change (of_Z 0) with (S754_zero false).
  cbn [sub SFsub].
  destruct (unit_interval_cases r Hr) as [[s ->] | (m & e & -> & He & Hm)].
  - exists 0%nat. split; [destruct s; reflexivity | exact Hn].
  - cbn [mul SFmul xorb].
    assert (H : Zpos (m * mN) * 2 ^ 53
                <= Z.of_nat n * (2 ^ 53 - 1) * 2 ^ (- (e + eN))).
    { rewrite Pos2Z.inj_mul, HmN.
      replace (- (e + eN)) with (- e + - eN) by lia.
      rewrite Z.pow_add_r by lia.
      pose proof (pow2_pos (- eN) ltac:(lia)) as HpN.
      assert (Hp : 2 ^ 53 <= 2 ^ (- e)) by (apply Z.pow_le_mono_r; lia).
      assert (Hs : Zpos m * 2 ^ 53 <= (2 ^ 53 - 1) * 2 ^ (- e)) by nia.
      assert (Hnn : 0 <= Z.of_nat n * 2 ^ (- eN)) by nia.
      replace (Z.pos m * (Z.of_nat n * 2 ^ (- eN)) * 2 ^ 53)
        with (Z.pos m * 2 ^ 53 * (Z.of_nat n * 2 ^ (- eN))) by ring.
      replace (Z.of_nat n * (2 ^ 53 - 1) * (2 ^ (- e) * 2 ^ (- eN)))
        with ((2 ^ 53 - 1) * 2 ^ (- e) * (Z.of_nat n * 2 ^ (- eN))) by ring.
      apply Z.mul_le_mono_nonneg_r; assumption. }
    destruct (binary_round_aux_below (m * mN) (e + eN) (Z.of_nat n)
                ltac:(lia) ltac:(lia) H)
      as [-> | (m' & e' & -> & He' & Hm')].
    + exists 0%nat. split; [reflexivity | exact Hn].
    + cbn [add SFadd]. unfold Math_floor.
      pose proof (pow2_pos (- e') ltac:(lia)) as Hp'.
      destruct (Z.leb_spec 0 e') as [Hz | Hneg].
      * assert (e' = 0) by lia. subst e'.
        rewrite Z.pow_0_r, Z.mul_1_r in Hm'.
        exists (Z.to_nat (Zpos m')). split; [|lia].
        apply array_index_scaled; rewrite ?Z.pow_0_r; lia.
      * cbn [cond_Zopp].
        set (z := Z.shiftr (Zpos m') (- e')).
        assert (Hzb : 0 <= z < Z.of_nat n).
        { unfold z. rewrite Z.shiftr_div_pow2 by lia. split.
          - apply Z.div_pos; lia.
          - apply Z.div_lt_upper_bound; lia. }
        exists (Z.to_nat z). split; [|lia].
        apply (array_index_of_Z z). lia.
Qed.

(* ===================================================================== *)
(** * Running the services *)
(* ===================================================================== *)

(** Running a sequence: the second computation starts in the state the first
    one leaves. *)
Lemma execState_bind {S A B : Type} (c : state S A) (k : A -> state S B)
  (s : S) :
  execState (bind c k) s = execState (k (evalState c s)) (execState c s).
Proof.
  unfold execState, evalState. simpl.
  destruct (runState c s) as [a s']. reflexivity.
Qed.

Lemma evalState_bind {S A B : Type} (c : state S A) (k : A -> state S B)
  (s : S) :
  evalState (bind c k) s = evalState (k (evalState c s)) (execState c s).
Proof.
  unfold execState, evalState. simpl.
  destruct (runState c s) as [a s']. reflexivity.
Qed.

Lemma pick_run (min max : number) (src : RandomSource) :
  runState (RandomNumberService.pick min max) src
  = (Math_floor (add (mul (upcoming src (drawn src)) (sub max min)) min),
     {| upcoming := upcoming src; drawn := S (drawn src) |}).
Proof. reflexivity. Qed.

Lemma getQuote_real_run (quotes : list IQuote) (src : RandomSource) :
  evalState
    (Local.getQuote {| Local.randomNumberService := theRandomNumberService;
                       Local.allQuotes := quotes |}) src
  = array_get quotes
      (evalState (RandomNumberService.pick (of_Z 0)
                    (of_nat (List.length quotes))) src).
Proof. reflexivity. Qed.

Lemma getQuote_stub_run (fake : number -> number -> number)
  (quotes : list IQuote) (calls : SpyCalls) :
  runState
    (Local.getQuote {| Local.randomNumberService := StubRandomNumberService fake;
                       Local.allQuotes := quotes |}) calls
  = (array_get quotes (fake (of_Z 0) (of_nat (List.length quotes))),
     calls ++ [(of_Z 0, of_nat (List.length quotes))]).
Proof. reflexivity. Qed.

(** The index the real service picks for a non-empty array. *)
Lemma pick_index (quotes : list IQuote) (src : RandomSource) :
  quotes <> [] ->
  Z.of_nat (List.length quotes) <= 2 ^ 32 - 1 ->
  uniform src ->
  exists i : nat,
    array_index
      (evalState (RandomNumberService.pick (of_Z 0)
                    (of_nat (List.length quotes))) src) = Some i
    /\ (i < List.length quotes)%nat.
Proof.
  intros Hne Hlen Hsrc.
  unfold evalState. rewrite pick_run. cbn [fst].
  apply floor_scaled_index; trivial.
  destruct quotes; [congruence | simpl; lia].
Qed.

(* ===================================================================== *)
(** * RandomNumberService.pick *)
(* ===================================================================== *)

(** C1. The claim is that [pick(min, max)] lies in [min, max) for all
    integers [min < max] and every value [r] of the random source in [0, 1).
    The code does not keep the upper bound: for [min = 2], [max = 3] and
    [r = 0.9999999999999998] (a value of [0, 1)), [r * (3 - 2) + 2] is
    [3 - 2^-52], which rounds to the binary64 value 3, and [pick] returns
    3 = [max]. *)
Theorem pick_2_3_returns_max :
  unit_interval almost_one = true /\
  to_Z (of_Z 2) = Some 2 /\ to_Z (of_Z 3) = Some 3 /\
  to_Z (evalState (RandomNumberService.pick (of_Z 2) (of_Z 3))
          (constant_source almost_one)) = Some 3.
Proof. repeat split; vm_compute; reflexivity. Qed.

(* ===================================================================== *)
(** * QuoteService, local variant *)
(* ===================================================================== *)

(** C2. For every non-empty quote list (of a length an array can have, at
    most 2^32 - 1) and every random source with values in [0, 1), the index
    [getQuote()] computes with [pick(0, N)] is an integer [i] with
    [0 <= i < N], and [getQuote()] returns the element at [i]: the access is
    in bounds. *)
Theorem getQuote_index_in_bounds (quotes : list IQuote) (src : RandomSource) :
  quotes <> [] ->
  Z.of_nat (List.length quotes) <= 2 ^ 32 - 1 ->
  uniform src ->
  exists i : nat,
    array_index
      (evalState (RandomNumberService.pick (of_Z 0)
                    (of_nat (List.length quotes))) src) = Some i
    /\ (i < List.length quotes)%nat
    /\ evalState
         (Local.getQuote {| Local.randomNumberService := theRandomNumberService;
                            Local.allQuotes := quotes |}) src
       = nth_error quotes i
    /\ nth_error quotes i <> None.
Proof.
  intros Hne Hlen Hsrc.
  destruct (pick_index quotes src Hne Hlen Hsrc) as (i & Hi & Hlt).
  exists i. repeat split; trivial.
  - rewrite getQuote_real_run. unfold array_get. rewrite Hi. reflexivity.
  - apply nth_error_Some. exact Hlt.
Qed.

Lemma getQuote_index_in_bounds_witness :
  test_QUOTE_DATA <> [] /\
  Z.of_nat (List.length test_QUOTE_DATA) <= 2 ^ 32 - 1 /\
  uniform (constant_source almost_one) /\
  exists i : nat,
    array_index
      (evalState (RandomNumberService.pick (of_Z 0)
                    (of_nat (List.length test_QUOTE_DATA)))
         (constant_source almost_one)) = Some i
    /\ (i < List.length test_QUOTE_DATA)%nat
    /\ evalState
         (Local.getQuote {| Local.randomNumberService := theRandomNumberService;
                            Local.allQuotes := test_QUOTE_DATA |})
         (constant_source almost_one)
       = nth_error test_QUOTE_DATA i
    /\ nth_error test_QUOTE_DATA i <> None.
Proof.
  assert (H1 : test_QUOTE_DATA <> []) by discriminate.
  assert (H2 : Z.of_nat (List.length test_QUOTE_DATA) <= 2 ^ 32 - 1)
    by (vm_compute; discriminate).
  assert (H3 : uniform (constant_source almost_one))
    by (intros n; vm_compute; reflexivity).
  repeat split; trivial.
  exact (getQuote_index_in_bounds test_QUOTE_DATA
           (constant_source almost_one) H1 H2 H3).
Defined.

(** C3. For every non-empty quote list, [getQuote()] returns a member of the
    list; and when the random number service is stubbed to return 0, or when
    [Math.random()] returns 0, the result is the first element. *)
Theorem getQuote_returns_member (quotes : list IQuote) (src : RandomSource) :
  quotes <> [] ->
  Z.of_nat (List.length quotes) <= 2 ^ 32 - 1 ->
  uniform src ->
  (exists q,
      evalState
        (Local.getQuote {| Local.randomNumberService := theRandomNumberService;
                           Local.allQuotes := quotes |}) src = Some q
      /\ In q quotes)
  /\ (exists q0,
        hd_error quotes = Some q0
        /\ (forall calls,
              evalState
                (Local.getQuote
                   {| Local.randomNumberService :=
                        StubRandomNumberService (returnValue (of_Z 0));
                      Local.allQuotes := quotes |}) calls = Some q0)
        /\ (upcoming src (drawn src) = S754_zero false ->
            evalState
              (Local.getQuote
                 {| Local.randomNumberService := theRandomNumberService;
                    Local.allQuotes := quotes |}) src = Some q0)).
Proof.
  intros Hne Hlen Hsrc. split.
  - destruct (pick_index quotes src Hne Hlen Hsrc) as (i & Hi & Hlt).
    destruct (nth_error quotes i) as [q |] eqn:Hq.
    + exists q. split; [|eapply nth_error_In; exact Hq].
      rewrite getQuote_real_run. unfold array_get. rewrite Hi. exact Hq.
    + apply nth_error_None in Hq. lia.
  - destruct quotes as [| q0 rest]; [congruence|].
    exists q0. split; [reflexivity|]. split.
    + intros calls. unfold evalState. rewrite getQuote_stub_run. reflexivity.
    + intros Hzero. rewrite getQuote_real_run.
      unfold evalState. rewrite pick_run, Hzero. cbn [fst].
      destruct (of_Z_exact (Z.of_nat (List.length (q0 :: rest))))
        as (mN & eN & HN & _); [simpl List.length in *; lia|].
      unfold of_nat. rewrite HN. reflexivity.
Qed.

Lemma getQuote_returns_member_witness :
  test_QUOTE_DATA <> [] /\
  Z.of_nat (List.length test_QUOTE_DATA) <= 2 ^ 32 - 1 /\
  uniform (constant_source (S754_zero false)) /\
  (exists q,
      evalState
        (Local.getQuote {| Local.randomNumberService := theRandomNumberService;
                           Local.allQuotes := test_QUOTE_DATA |})
        (constant_source (S754_zero false)) = Some q
      /\ In q test_QUOTE_DATA)
  /\ (exists q0,
        hd_error test_QUOTE_DATA = Some q0
        /\ (forall calls,
              evalState
                (Local.getQuote
                   {| Local.randomNumberService :=
                        StubRandomNumberService (returnValue (of_Z 0));
                      Local.allQuotes := test_QUOTE_DATA |}) calls = Some q0)
        /\ (upcoming (constant_source (S754_zero false))
              (drawn (constant_source (S754_zero false))) = S754_zero false ->
            evalState
              (Local.getQuote
                 {| Local.randomNumberService := theRandomNumberService;
                    Local.allQuotes := test_QUOTE_DATA |})
              (constant_source (S754_zero false)) = Some q0)).
Proof.
  assert (H1 : test_QUOTE_DATA <> []) by discriminate.
  assert (H2 : Z.of_nat (List.length test_QUOTE_DATA) <= 2 ^ 32 - 1)
    by (vm_compute; discriminate).
  assert (H3 : uniform (constant_source (S754_zero false)))
    by (intros n; vm_compute; reflexivity).
  split; [exact H1|]. split; [exact H2|]. split; [exact H3|].
  exact (getQuote_returns_member test_QUOTE_DATA
           (constant_source (S754_zero false)) H1 H2 H3).
Defined.

(** C4. For every quote list of length N, one call of [getQuote()] calls
    [pick] of the injected random number service exactly once, with the
    arguments 0 and N; for a list of one element the call is [pick(0, 1)]. *)
Theorem getQuote_calls_pick_once (fake : number -> number -> number)
  (quotes : list IQuote) :
  execState
    (Local.getQuote {| Local.randomNumberService := StubRandomNumberService fake;
                       Local.allQuotes := quotes |}) []
  = [(of_Z 0, of_nat (List.length quotes))]
  /\ (forall q : IQuote,
        execState
          (Local.getQuote
             {| Local.randomNumberService := StubRandomNumberService fake;
                Local.allQuotes := [q] |}) []
        = [(of_Z 0, of_Z 1)]).
Proof.
  split; [|intros q]; unfold execState; rewrite getQuote_stub_run; reflexivity.
Qed.

(** C10. On an empty quote list [getQuote()] does not fail: [pick(0, 0)] is
    0, [quotes[0]] is [undefined], and that is what [getQuote()] returns. *)
Theorem getQuote_empty_list (src : RandomSource) :
  uniform src ->
  to_Z (evalState (RandomNumberService.pick (of_Z 0) (of_nat 0)) src) = Some 0
  /\ evalState
       (Local.getQuote {| Local.randomNumberService := theRandomNumberService;
                          Local.allQuotes := [] |}) src = None.
Proof.
  intros Hsrc.
  rewrite getQuote_real_run. cbn [List.length].
  unfold evalState. rewrite pick_run. cbn [fst].
  destruct (unit_interval_cases _ (Hsrc (drawn src)))
    as [[s ->] | (m & e & -> & _)].
  - destruct s; split; reflexivity.
  - split; reflexivity.
Qed.

Lemma getQuote_empty_list_witness :
  uniform (constant_source almost_one) /\
  to_Z (evalState (RandomNumberService.pick (of_Z 0) (of_nat 0))
          (constant_source almost_one)) = Some 0
  /\ evalState
       (Local.getQuote {| Local.randomNumberService := theRandomNumberService;
                          Local.allQuotes := [] |})
       (constant_source almost_one) = None.
Proof.
  assert (H : uniform (constant_source almost_one))
    by (intros n; vm_compute; reflexivity).
  split; [exact H|].
  exact (getQuote_empty_list (constant_source almost_one) H).
Defined.

(* ===================================================================== *)
(** * Observables *)
(* ===================================================================== *)

(** A single-shot delivery, spelled out. *)
Lemma single_shot_cases {A : Type} (o : Rx.Observable A) :
  Rx.single_shot o = true <->
  (exists a, o = Rx.Next a Rx.Complete) \/ (exists e, o = Rx.Error e).
Proof.
  split.
  - destruct o as [a [b rest | | e'] | | e]; simpl; try discriminate; intros _.
    + left. now exists a.
    + right. now exists e.
  - intros [[a ->] | [e ->]]; reflexivity.
Qed.

(** [map] delivers at most as many values as its source. *)
Lemma map_values_length {A B : Type} (project : A -> Except B)
  (o : Rx.Observable A) :
  (List.length (Rx.values (Rx.map project o)) <= List.length (Rx.values o))%nat.
Proof.
  induction o as [a rest IH | | e]; simpl; try lia.
  destruct (project a); simpl; lia.
Qed.

(** [map] keeps a delivery single-shot, whether the projection returns or
    throws. *)
Lemma map_single_shot {A B : Type} (project : A -> Except B)
  (o : Rx.Observable A) :
  Rx.single_shot o = true -> Rx.single_shot (Rx.map project o) = true.
Proof.
  intros H. apply single_shot_cases in H.
  destruct H as [[a ->] | [e ->]]; simpl; [|reflexivity].
  destruct (project a); reflexivity.
Qed.

(* ===================================================================== *)
(** * QuoteService, remote variant *)
(* ===================================================================== *)

Lemma remote_getQuote_run
  (respond : Http.Request -> Rx.Observable Http.Response)
  (connections : list Http.Request) :
  runState (Remote.getQuote (Remote.mocked respond)) connections
  = (to_quotes (respond quote_request), connections ++ [quote_request]).
Proof. reflexivity. Qed.

(** C5. Every call of the remote [getQuote()] issues exactly one HTTP
    request: a GET without a body to
    [http://quotesondesign.com/wp-json/posts] with the single query parameter
    [filter[orderby]=rand]. *)
Theorem remote_getQuote_one_request
  (respond : Http.Request -> Rx.Observable Http.Response)
  (connections : list Http.Request) :
  execState (Remote.getQuote (Remote.mocked respond)) connections
  = connections ++
      [ {| Http.method := Http.Get;
           Http.url :=
             "http://quotesondesign.com/wp-json/posts?filter[orderby]=rand";
           Http.body := None |} ]
  /\ Http.set "filter[orderby]" "rand" Http.URLSearchParams_new
     = [("filter[orderby]"%string, ["rand"%string])]
  /\ Http.url quote_request
     = (Remote.URL ++ "?" ++ "filter[orderby]" ++ "=" ++ "rand")%string.
Proof.
  unfold execState. rewrite remote_getQuote_run. repeat split.
Qed.

(** C6. For a response whose body is a non-empty array of records, the
    remote [getQuote()] delivers the quote made from the first record, its
    [content] as [text] and its [title] as [attribution]; the body
    [[{title: "Me", content: "Testing is a good thing"}]] gives
    [{text: "Testing is a good thing", attribution: "Me"}]. *)
Theorem remote_getQuote_first_record (record : IAPIRecord)
  (others : list IAPIRecord) (connections : list Http.Request) :
  evalState
    (Remote.getQuote
       (Remote.mocked
          (fun _ => Http.mockRespond {| Http.json := inr (record :: others) |})))
    connections
  = Rx.Next {| text := content record; attribution := title record |}
      Rx.Complete
  /\ evalState
       (Remote.getQuote
          (Remote.mocked
             (fun _ =>
                Http.mockRespond
                  {| Http.json :=
                       inr [ {| content := "Testing is a good thing";
                                title := "Me" |} ] |})))
       connections
     = Rx.Next {| text := "Testing is a good thing"; attribution := "Me" |}
         Rx.Complete.
Proof.
  unfold evalState. rewrite !remote_getQuote_run. split; reflexivity.
Qed.

(** C7. When the response body is an empty array, the observable of the
    remote [getQuote()] fails: the subscriber is delivered an error (the
    [TypeError] of reading [content] off [undefined]) and no quote. *)
Theorem remote_getQuote_empty_array (connections : list Http.Request) :
  let quotes :=
    evalState
      (Remote.getQuote
         (Remote.mocked (fun _ => Http.mockRespond {| Http.json := inr [] |})))
      connections in
  quotes = Rx.Error TypeError
  /\ Rx.values quotes = []
  /\ Rx.failure quotes = Some TypeError.
Proof.
  cbv zeta. unfold evalState. rewrite remote_getQuote_run.
  repeat split.
Qed.

(** C8. When the HTTP client delivers one outcome for the request (one
    response, or one failure), so does the observable of the remote
    [getQuote()]: either exactly one quote and then the completion, or one
    error and no quote; never both, never a second value. *)
Theorem remote_getQuote_single_outcome
  (respond : Http.Request -> Rx.Observable Http.Response)
  (connections : list Http.Request) :
  (forall request, Rx.single_shot (respond request) = true) ->
  let quotes :=
    evalState (Remote.getQuote (Remote.mocked respond)) connections in
  (exists q, quotes = Rx.Next q Rx.Complete
             /\ Rx.values quotes = [q] /\ Rx.failure quotes = None)
  \/ (exists e, quotes = Rx.Error e
                /\ Rx.values quotes = [] /\ Rx.failure quotes = Some e).
Proof.
  intros Hone. cbv zeta. unfold evalState. rewrite remote_getQuote_run.
  cbn [fst].
  assert (H : Rx.single_shot (to_quotes (respond quote_request)) = true).
  { unfold to_quotes. do 3 apply map_single_shot. apply Hone. }
  apply single_shot_cases in H.
  destruct H as [[q ->] | [e ->]]; [left; exists q | right; exists e];
    repeat split.
Qed.

Lemma remote_getQuote_single_outcome_witness :
  (forall request : Http.Request,
      Rx.single_shot
        (Http.mockRespond
           {| Http.json := inr [ {| content := "Testing is a good thing";
                                    title := "Me" |} ] |}) = true) /\
  let quotes :=
    evalState
      (Remote.getQuote
         (Remote.mocked
            (fun _ =>
               Http.mockRespond
                 {| Http.json := inr [ {| content := "Testing is a good thing";
                                          title := "Me" |} ] |}))) [] in
  (exists q, quotes = Rx.Next q Rx.Complete
             /\ Rx.values quotes = [q] /\ Rx.failure quotes = None)
  \/ (exists e, quotes = Rx.Error e
                /\ Rx.values quotes = [] /\ Rx.failure quotes = Some e).
Proof.
  assert (H : forall request : Http.Request,
             Rx.single_shot
               (Http.mockRespond
                  {| Http.json := inr [ {| content := "Testing is a good thing";
                                           title := "Me" |} ] |}) = true)
    by (intros request; reflexivity).
  split; [exact H|].
  exact (remote_getQuote_single_outcome
           (fun _ =>
              Http.mockRespond
                {| Http.json := inr [ {| content := "Testing is a good thing";
                                         title := "Me" |} ] |}) [] H).
Defined.

(* ===================================================================== *)
(** * QuoteComponent *)
(* ===================================================================== *)

Section Component.

Variable randomAnswer : nat -> option IQuote.
Variable remoteAnswer : nat -> Rx.Observable IQuote.

(** The component is given a spying service with these answers. *)
Local Notation "'spied'" := (QuoteServiceApi.spy randomAnswer remoteAnswer).

Lemma getRandomQuote_run (this : App.QuoteComponent)
  (calls : list QuoteServiceApi.Call) :
  runState (App.getRandomQuote spied this) calls
  = ({| App.randomQuote := randomAnswer (List.length calls);
        App.remoteText := App.remoteText this;
        App.remoteAttribution := App.remoteAttribution this |},
     calls ++ [QuoteServiceApi.GetRandomQuote]).
Proof. reflexivity. Qed.

Lemma getRemoteQuote_run (this : App.QuoteComponent)
  (calls : list QuoteServiceApi.Call) :
  runState (App.getRemoteQuote spied this) calls
  = ({| App.randomQuote := App.randomQuote this;
        App.remoteText :=
          Some (Rx.map (fun quote => inr (text quote))
                  (remoteAnswer (List.length calls)));
        App.remoteAttribution :=
          Some (Rx.map (fun quote => inr (attribution quote))
                  (remoteAnswer (List.length calls))) |},
     calls ++ [QuoteServiceApi.GetRemoteQuote]).
Proof. reflexivity. Qed.

Lemma handle_calls (click : App.Click) (this : App.QuoteComponent)
  (calls : list QuoteServiceApi.Call) :
  execState (App.handle spied click this) calls
  = calls ++ [App.call_of click].
Proof. destruct click; reflexivity. Qed.

Lemma handle_all_calls (clicks : list App.Click) :
  forall (this : App.QuoteComponent) (calls : list QuoteServiceApi.Call),
    execState (App.handle_all spied clicks this) calls
    = calls ++ List.map App.call_of clicks.
Proof.
  induction clicks as [| click later IH]; intros this calls.
  - simpl. unfold execState. simpl. now rewrite app_nil_r.
  - change (App.handle_all spied (click :: later) this)
      with (bind (App.handle spied click this)
              (fun this' => App.handle_all spied later this')).
    rewrite execState_bind, handle_calls, IH.
    simpl. now rewrite <- app_assoc.
Qed.

Lemma constructor_run (calls : list QuoteServiceApi.Call) :
  runState (App.constructor spied) calls
  = ({| App.randomQuote := randomAnswer (List.length calls);
        App.remoteText :=
          Some (Rx.map (fun quote => inr (text quote))
                  (remoteAnswer
                     (List.length (calls ++ [QuoteServiceApi.GetRandomQuote]))));
        App.remoteAttribution :=
          Some (Rx.map (fun quote => inr (attribution quote))
                  (remoteAnswer
                     (List.length (calls ++ [QuoteServiceApi.GetRandomQuote])))) |},
     (calls ++ [QuoteServiceApi.GetRandomQuote])
       ++ [QuoteServiceApi.GetRemoteQuote]).
Proof. reflexivity. Qed.

(** C9, as the component has it. Construction calls the quote service twice:
    [getRandomQuote()] once, then [getRemoteQuote()] once. Every click calls
    the service exactly once, with the method of its button. The results are
    bound to the fields: [randomQuote] is what [getRandomQuote()] returned,
    [remoteText$] and [remoteAttribution$] are the [text] and the
    [attribution] of what the observable of [getRemoteQuote()] delivers. No
    other call reaches the service: over construction and any clicks, the
    calls are those two followed by one per click. *)
Theorem component_service_calls (clicks : list App.Click) :
  execState (App.constructor spied) []
  = [QuoteServiceApi.GetRandomQuote; QuoteServiceApi.GetRemoteQuote]
  /\ (forall click this calls,
        execState (App.handle spied click this) calls
        = calls ++ [App.call_of click])
  /\ execState (App.session spied clicks) []
     = [QuoteServiceApi.GetRandomQuote; QuoteServiceApi.GetRemoteQuote]
         ++ List.map App.call_of clicks
  /\ (forall this calls,
        App.randomQuote
          (evalState (App.getRandomQuote spied this) calls)
        = randomAnswer (List.length calls))
  /\ (forall this calls,
        let this' :=
          evalState (App.getRemoteQuote spied this) calls in
        App.remoteText this'
        = Some (Rx.map (fun quote => inr (text quote))
                  (remoteAnswer (List.length calls)))
        /\ App.remoteAttribution this'
           = Some (Rx.map (fun quote => inr (attribution quote))
                     (remoteAnswer (List.length calls)))).
Proof.
  split; [reflexivity|]. split; [apply handle_calls|]. split.
  - change (App.session spied clicks)
      with (bind (App.constructor spied)
              (fun this => App.handle_all spied clicks this)).
    rewrite execState_bind, handle_all_calls.
    unfold execState. rewrite constructor_run. reflexivity.
  - split; intros this calls; [reflexivity | split; reflexivity].
Qed.

End Component.

(** C9, as the claim has it, fails: construction does not call the quote
    service exactly once. *)
Lemma constructor_calls_not_one :
  List.length
    (execState
       (App.constructor
          (QuoteServiceApi.spy (fun _ => None) (fun _ => Rx.Complete))) [])
  <> 1%nat.
Proof. vm_compute. discriminate. Qed.

(* ===================================================================== *)
(** * More about RandomNumberService.pick *)
(* ===================================================================== *)

Lemma to_Z_scaled (m : positive) (e z : Z) :
  e <= 0 -> Zpos m = z * 2 ^ (- e) ->
  to_Z (S754_finite false m e) = Some z.
Proof.
  intros He Hm. unfold to_Z.
  pose proof (pow2_pos (- e) ltac:(lia)) as Hp.
  assert (Hk : Z.shiftr (Zpos m) (- e) = z).
  { rewrite Z.shiftr_div_pow2, Hm by lia. apply Z.div_mul. lia. }
  rewrite Hk, Z.shiftl_mul_pow2, <- Hm, Z.eqb_refl by lia.
  reflexivity.
Qed.

Lemma to_Z_of_Z (z : Z) : 0 <= z < 2 ^ 53 -> to_Z (of_Z z) = Some z.
Proof.
  intros Hz. destruct (Z.eq_dec z 0) as [-> | Hnz]; [reflexivity|].
  destruct (of_Z_exact z) as (m & e & -> & He & Hm); [lia|].
  now apply to_Z_scaled.
Qed.

(** What [Math.floor(r * (n - 0) + 0)] is, for [r] in [0, 1) and an integer
    [n] from 1 to 2^53 - 1: a zero, or a positive integer below [n]. *)
Lemma floor_scaled_cases (r : number) (n : Z) :
  unit_interval r = true -> 0 < n < 2 ^ 53 ->
  let x := Math_floor (add (mul r (sub (of_Z n) (of_Z 0))) (of_Z 0)) in
  (exists s, x = S754_zero s)
  \/ (exists m, x = S754_finite false m 0 /\ Zpos m < n)
  \/ (exists z, 0 < z < n /\ x = of_Z z).
Proof.
  intros Hr Hn. cbv zeta.
  destruct (of_Z_exact n) as (mN & eN & HN & HeN & HmN); [lia|].
  rewrite HN.
  change (of_Z 0) with (S754_zero false).
  cbn [sub SFsub].
  destruct (unit_interval_cases r Hr) as [[s ->] | (m & e & -> & He & Hm)].
  - left. exists false. destruct s; reflexivity.
  - cbn [mul SFmul xorb].
    assert (H : Zpos (m * mN) * 2 ^ 53
                <= n * (2 ^ 53 - 1) * 2 ^ (- (e + eN))).
    { rewrite Pos2Z.inj_mul, HmN.
      replace (- (e + eN)) with (- e + - eN) by lia.
      rewrite Z.pow_add_r by lia.
      pose proof (pow2_pos (- eN) ltac:(lia)) as HpN.
      assert (Hp : 2 ^ 53 <= 2 ^ (- e)) by (apply Z.pow_le_mono_r; lia).
      assert (Hs : Zpos m * 2 ^ 53 <= (2 ^ 53 - 1) * 2 ^ (- e)) by nia.
      assert (Hnn : 0 <= n * 2 ^ (- eN)) by nia.
      replace (Z.pos m * (n * 2 ^ (- eN)) * 2 ^ 53)
        with (Z.pos m * 2 ^ 53 * (n * 2 ^ (- eN))) by ring.
      replace (n * (2 ^ 53 - 1) * (2 ^ (- e) * 2 ^ (- eN)))
        with ((2 ^ 53 - 1) * 2 ^ (- e) * (n * 2 ^ (- eN))) by ring.
      apply Z.mul_le_mono_nonneg_r; assumption. }
    destruct (binary_round_aux_below (m * mN) (e + eN) n
                ltac:(lia) ltac:(lia) H)
      as [-> | (m' & e' & -> & He' & Hm')].
    + left. exists false. reflexivity.
    + cbn [add SFadd]. unfold Math_floor.
      pose proof (pow2_pos (- e') ltac:(lia)) as Hp'.
      destruct (Z.leb_spec 0 e') as [Hz | Hneg].
      * assert (e' = 0) by lia. subst e'.
        rewrite Z.pow_0_r, Z.mul_1_r in Hm'.
        right. left. exists m'. split; [reflexivity | exact Hm'].
      * cbn [cond_Zopp].
        set (z := Z.shiftr (Zpos m') (- e')).
        assert (Hzb : 0 <= z < n).
        { unfold z. rewrite Z.shiftr_div_pow2 by lia. split.
          - apply Z.div_pos; lia.
          - apply Z.div_lt_upper_bound; lia. }
        destruct (Z.eq_dec z 0) as [Hz0 | Hz0].
        -- left. exists false. rewrite Hz0. reflexivity.
        -- right. right. exists z. split; [lia | reflexivity].
Qed.

(** X1. With [min = 0] the range of [pick] is kept for every bound, not only
    for array lengths: for every integer [n] from 1 to 2^53 - 1 and every
    random source with values in [0, 1), [pick(0, n)] is an integer [k] with
    [0 <= k < n]. *)
Theorem pick_from_zero_in_range (n : Z) (src : RandomSource) :
  0 < n < 2 ^ 53 ->
  uniform src ->
  exists k : Z,
    to_Z (evalState (RandomNumberService.pick (of_Z 0) (of_Z n)) src) = Some k
    /\ 0 <= k < n.
Proof.
  intros Hn Hsrc. unfold evalState. rewrite pick_run. cbn [fst].
  pose proof (floor_scaled_cases _ n (Hsrc (drawn src)) Hn) as H.
  cbv zeta in H.
  destruct H as [[s ->] | [(m & -> & Hm) | (z & Hz & ->)]].
  - exists 0. split; [reflexivity | lia].
  - exists (Zpos m). split; [|lia].
    apply to_Z_scaled; rewrite ?Z.pow_0_r; lia.
  - exists z. split; [apply to_Z_of_Z; lia | lia].
Qed.

Lemma pick_from_zero_in_range_witness :
  0 < 6 < 2 ^ 53 /\
  uniform (constant_source almost_one) /\
  exists k : Z,
    to_Z (evalState (RandomNumberService.pick (of_Z 0) (of_Z 6))
            (constant_source almost_one)) = Some k
    /\ 0 <= k < 6.
Proof.
  assert (H1 : 0 < 6 < 2 ^ 53) by (split; reflexivity).
  assert (H2 : uniform (constant_source almost_one))
    by (intros n; vm_compute; reflexivity).
  split; [exact H1|]. split; [exact H2|].
  exact (pick_from_zero_in_range 6 (constant_source almost_one) H1 H2).
Defined.

(* ===================================================================== *)
(** * More about the local QuoteService *)
(* ===================================================================== *)

(** X2. [getQuote()] follows whatever index the random number service
    returns: when [pick] returns the integer [k] (at least 0, below
    2^32 - 1), [getQuote()] returns the quote at position [k], and
    [undefined] when [k] is past the end of the list; it does not fail. *)
Theorem getQuote_follows_pick (k : Z) (quotes : list IQuote)
  (calls : SpyCalls) :
  0 <= k < 2 ^ 32 - 1 ->
  let result :=
    evalState
      (Local.getQuote
         {| Local.randomNumberService :=
              StubRandomNumberService (returnValue (of_Z k));
            Local.allQuotes := quotes |}) calls in
  result = nth_error quotes (Z.to_nat k)
  /\ (Z.of_nat (List.length quotes) <= k -> result = None).
Proof.
  intros Hk. cbv zeta. unfold evalState. rewrite getQuote_stub_run.
  cbn [fst]. unfold array_get, returnValue.
  rewrite (array_index_of_Z k Hk). split; [reflexivity|].
  intros Hlen. apply nth_error_None. lia.
Qed.

Lemma getQuote_follows_pick_witness :
  0 <= 1 < 2 ^ 32 - 1 /\
  let result :=
    evalState
      (Local.getQuote
         {| Local.randomNumberService :=
              StubRandomNumberService (returnValue (of_Z 1));
            Local.allQuotes := test_QUOTE_DATA |}) [] in
  result = nth_error test_QUOTE_DATA (Z.to_nat 1)
  /\ (Z.of_nat (List.length test_QUOTE_DATA) <= 1 -> result = None).
Proof.
  assert (H : 0 <= 1 < 2 ^ 32 - 1) by (split; [discriminate | reflexivity]).
  split; [exact H|].
  exact (getQuote_follows_pick 1 test_QUOTE_DATA [] H).
Defined.

(* ===================================================================== *)
(** * More about the remote QuoteService *)
(* ===================================================================== *)


Lemma to_quotes_fused (responses : Rx.Observable Http.Response) :
  to_quotes responses = Rx.map quote_of_response responses.
Proof.
  unfold to_quotes.
  induction responses as [response rest IH | | e]; cbn [Rx.map];
    try reflexivity.
  unfold quote_of_response.
  destruct (Http.json response) as [e | [| record others]];
    cbn [Rx.map nth_error]; try reflexivity.
  f_equal. exact IH.
Qed.

(** X3. The three [map]s of the remote [getQuote()] act as one: whatever the
    HTTP client delivers, every response is turned into a quote by
    [quote_of_response] (the first record's [content] and [title]), up to
    the first response whose body cannot be read or is empty, where the
    delivery ends with that error. *)
Theorem remote_getQuote_per_response
  (respond : Http.Request -> Rx.Observable Http.Response)
  (connections : list Http.Request) :
  evalState (Remote.getQuote (Remote.mocked respond)) connections
  = Rx.map quote_of_response (respond quote_request).
Proof.
  unfold evalState. rewrite remote_getQuote_run. apply to_quotes_fused.
Qed.

(** X4. A failure is not caught by the remote [getQuote()]: a transport
    error of the HTTP client, and an exception of [response.json()], reach
    the subscriber as they are, and no quote is delivered. *)
Theorem remote_getQuote_failure_passes (e : JSError)
  (connections : list Http.Request) :
  evalState (Remote.getQuote (Remote.mocked (fun _ => Rx.Error e)))
    connections = Rx.Error e
  /\ evalState
       (Remote.getQuote
          (Remote.mocked (fun _ => Http.mockRespond {| Http.json := inl e |})))
       connections = Rx.Error e.
Proof.
  unfold evalState. rewrite !remote_getQuote_run. split; reflexivity.
Qed.

(** X5. The remote [getQuote()] never delivers more quotes than the HTTP
    client delivers responses, and it fails whenever the client fails. *)
Theorem remote_getQuote_no_extra_quotes
  (respond : Http.Request -> Rx.Observable Http.Response)
  (connections : list Http.Request) :
  let quotes :=
    evalState (Remote.getQuote (Remote.mocked respond)) connections in
  (List.length (Rx.values quotes)
   <= List.length (Rx.values (respond quote_request)))%nat
  /\ (Rx.failure (respond quote_request) <> None ->
      Rx.failure quotes <> None).
Proof.
  cbv zeta. rewrite remote_getQuote_per_response. split.
  - apply map_values_length.
  - induction (respond quote_request) as [response rest IH | | e]; simpl;
      trivial.
    destruct (quote_of_response response); simpl; [discriminate | exact IH].
Qed.

Lemma remote_getQuote_no_extra_quotes_witness :
  let quotes :=
    evalState
      (Remote.getQuote
         (Remote.mocked (fun _ => Rx.Error (TransportError 503)))) [] in
  (List.length (Rx.values quotes)
   <= List.length
        (Rx.values
           ((fun _ : Http.Request =>
               @Rx.Error Http.Response (TransportError 503)) quote_request)))%nat
  /\ (Rx.failure
        ((fun _ : Http.Request =>
            @Rx.Error Http.Response (TransportError 503)) quote_request)
      <> None ->
      Rx.failure quotes <> None).
Proof.
  exact (remote_getQuote_no_extra_quotes
           (fun _ => Rx.Error (TransportError 503)) []).
Defined.

(* ===================================================================== *)
(** * The components of the blog post *)
(* ===================================================================== *)

Lemma runState_bind {S A B : Type} (c : state S A) (k : A -> state S B)
  (s : S) :
  runState (bind c k) s = runState (k (evalState c s)) (execState c s).
Proof.
  unfold execState, evalState. simpl.
  destruct (runState c s) as [a s']. reflexivity.
Qed.

Lemma sync_clicks_spied (answer : nat -> option IQuote) (n : nat) :
  forall (this : BlogSync.QuoteComponent) (calls : nat),
    runState (BlogSync.clicks (QuoteServiceOf.spy answer) n this) calls
    = (match n with
       | O => this
       | S k => {| BlogSync.quote := answer (calls + k)%nat |}
       end, (calls + n)%nat).
Proof.
  induction n as [| k IH]; intros this calls.
  - simpl. now rewrite Nat.add_0_r.
  - change (BlogSync.clicks (QuoteServiceOf.spy answer) (S k) this)
      with (bind (BlogSync.getQuote (QuoteServiceOf.spy answer) this)
              (fun this' => BlogSync.clicks (QuoteServiceOf.spy answer) k this')).
    rewrite runState_bind, IH.
    change (execState (BlogSync.getQuote (QuoteServiceOf.spy answer) this) calls)
      with (S calls).
    change (evalState (BlogSync.getQuote (QuoteServiceOf.spy answer) this) calls)
      with {| BlogSync.quote := answer calls |}.
    destruct k as [| j]; f_equal; try lia.
    + now rewrite Nat.add_0_r.
    + f_equal. f_equal. lia.
Qed.

(** X6. The component of the blog post calls [getQuote()] of its service
    exactly once when it is constructed and exactly once per click, and its
    [quote] is always the result of the latest call: after construction and
    [n] clicks the service has been called [1 + n] times and [quote] is the
    answer to the last of these calls. *)
Theorem sync_component_calls (answer : nat -> option IQuote) (n calls : nat) :
  runState (BlogSync.session (QuoteServiceOf.spy answer) n) calls
  = ({| BlogSync.quote := answer (calls + n)%nat |}, (calls + 1 + n)%nat).
Proof.
  change (BlogSync.session (QuoteServiceOf.spy answer) n)
    with (bind (BlogSync.constructor (QuoteServiceOf.spy answer))
            (fun this => BlogSync.clicks (QuoteServiceOf.spy answer) n this)).
  rewrite runState_bind, sync_clicks_spied.
  change (execState (BlogSync.constructor (QuoteServiceOf.spy answer)) calls)
    with (S calls).
  change (evalState (BlogSync.constructor (QuoteServiceOf.spy answer)) calls)
    with {| BlogSync.quote := answer calls |}.
  destruct n as [| k]; f_equal; try lia.
  - now rewrite Nat.add_0_r.
  - f_equal. f_equal. lia.
Qed.



(* ===================================================================== *)
(** * The components with the services behind them *)
(* ===================================================================== *)

Lemma getQuote_real_member (quotes : list IQuote) (src : RandomSource) :
  quotes <> [] ->
  Z.of_nat (List.length quotes) <= 2 ^ 32 - 1 ->
  uniform src ->
  exists q,
    evalState
      (Local.getQuote {| Local.randomNumberService := theRandomNumberService;
                         Local.allQuotes := quotes |}) src = Some q
    /\ In q quotes.
Proof.
  intros Hne Hlen Hsrc.
  destruct (pick_index quotes src Hne Hlen Hsrc) as (i & Hi & Hlt).
  destruct (nth_error quotes i) as [q |] eqn:Hq.
  - exists q. split; [|eapply nth_error_In; exact Hq].
    rewrite getQuote_real_run. unfold array_get. rewrite Hi. exact Hq.
  - apply nth_error_None in Hq. lia.
Qed.

Lemma getQuote_real_empty (src : RandomSource) :
  uniform src ->
  evalState
    (Local.getQuote {| Local.randomNumberService := theRandomNumberService;
                       Local.allQuotes := [] |}) src = None.
Proof.
  intros Hsrc. rewrite getQuote_real_run. cbn [List.length].
  unfold evalState. rewrite pick_run. cbn [fst].
  destruct (unit_interval_cases _ (Hsrc (drawn src)))
    as [[s ->] | (m & e & -> & _)]; [destruct s|]; reflexivity.
Qed.

(** X13. With the real random number service, the local [getQuote()]
    returns [undefined] exactly when there is no quote to pick: for a quote
    list of at most 2^32 - 1 entries and a random source with values in
    [0, 1), the result is [undefined] if and only if the list is empty. *)
Theorem getQuote_undefined_iff_empty (quotes : list IQuote)
  (src : RandomSource) :
  Z.of_nat (List.length quotes) <= 2 ^ 32 - 1 ->
  uniform src ->
  evalState
    (Local.getQuote {| Local.randomNumberService := theRandomNumberService;
                       Local.allQuotes := quotes |}) src = None
  <-> quotes = [].
Proof.
  intros Hlen Hsrc. split.
  - intros Hnone. destruct quotes as [| q0 rest]; [reflexivity|].
    destruct (getQuote_real_member (q0 :: rest) src) as (q & Hq & _);
      trivial; congruence.
  - intros ->. now apply getQuote_real_empty.
Qed.

Lemma getQuote_undefined_iff_empty_witness :
  Z.of_nat (List.length test_QUOTE_DATA) <= 2 ^ 32 - 1 /\
  uniform (constant_source almost_one) /\
  (evalState
     (Local.getQuote {| Local.randomNumberService := theRandomNumberService;
                        Local.allQuotes := test_QUOTE_DATA |})
     (constant_source almost_one) = None
   <-> test_QUOTE_DATA = []).
Proof.
  assert (H1 : Z.of_nat (List.length test_QUOTE_DATA) <= 2 ^ 32 - 1)
    by (vm_compute; discriminate).
  assert (H2 : uniform (constant_source almost_one))
    by (intros n; vm_compute; reflexivity).
  split; [exact H1|]. split; [exact H2|].
  exact (getQuote_undefined_iff_empty test_QUOTE_DATA
           (constant_source almost_one) H1 H2).
Defined.

Section SyncEndToEnd.

Variable quotes : list IQuote.
Hypothesis quotes_nonempty : quotes <> [].
Hypothesis quotes_fit : Z.of_nat (List.length quotes) <= 2 ^ 32 - 1.

(** The provider of the component: the local service over the real random
    number service and the quote list. *)
Local Notation "'provided'" :=
  (QuoteServiceOf.local
     {| Local.randomNumberService := theRandomNumberService;
        Local.allQuotes := quotes |}).

Lemma sync_getQuote_provided (this : BlogSync.QuoteComponent)
  (src : RandomSource) :
  uniform src ->
  let '(this', src') := runState (BlogSync.getQuote provided this) src in
  (exists q, BlogSync.quote this' = Some q /\ In q quotes)
  /\ drawn src' = S (drawn src)
  /\ upcoming src' = upcoming src.
Proof.
  intros Hsrc.
  destruct (getQuote_real_member quotes src quotes_nonempty quotes_fit Hsrc)
    as (q & Hq & Hin).
  rewrite getQuote_real_run in Hq.
  change (runState (BlogSync.getQuote provided this) src)
    with ({| BlogSync.quote :=
               array_get quotes
                 (evalState (RandomNumberService.pick (of_Z 0)
                               (of_nat (List.length quotes))) src) |},
          {| upcoming := upcoming src; drawn := S (drawn src) |}).
  repeat split. exists q. split; [exact Hq | exact Hin].
Qed.

Lemma sync_clicks_provided (n : nat) :
  forall (this : BlogSync.QuoteComponent) (src : RandomSource),
    uniform src ->
    (exists q, BlogSync.quote this = Some q /\ In q quotes) ->
    let '(this', src') := runState (BlogSync.clicks provided n this) src in
    (exists q, BlogSync.quote this' = Some q /\ In q quotes)
    /\ drawn src' = (drawn src + n)%nat
    /\ upcoming src' = upcoming src.
Proof.
  induction n as [| k IH]; intros this src Hsrc Hthis.
  - simpl. repeat split; trivial; lia.
  - change (BlogSync.clicks provided (S k) this)
      with (bind (BlogSync.getQuote provided this)
              (fun this' => BlogSync.clicks provided k this')).
    rewrite runState_bind.
    pose proof (sync_getQuote_provided this src Hsrc) as H1.
    unfold evalState, execState.
    destruct (runState (BlogSync.getQuote provided this) src)
      as [this1 src1].
    destruct H1 as (Hq1 & Hd1 & Hu1). cbn [fst snd].
    assert (Hsrc1 : uniform src1).
    { intros i. rewrite Hu1. apply Hsrc. }
    pose proof (IH this1 src1 Hsrc1 Hq1) as H2.
    destruct (runState (BlogSync.clicks provided k this1) src1)
      as [this2 src2].
    destruct H2 as (Hq2 & Hd2 & Hu2).
    repeat split; trivial; [lia | congruence].
Qed.

(** X8. In the application of the blog post (the component, the local quote
    service, the random number service and a non-empty quote list), the
    quote the component shows is always one of the list: after construction
    and any number [n] of clicks, [quote] is a member of the list, and
    exactly [1 + n] random numbers have been drawn, one per call. *)
Theorem sync_application_shows_member (n : nat) (src : RandomSource) :
  uniform src ->
  let '(this, src') := runState (BlogSync.session provided n) src in
  (exists q, BlogSync.quote this = Some q /\ In q quotes)
  /\ drawn src' = (drawn src + 1 + n)%nat
  /\ upcoming src' = upcoming src.
Proof.
  intros Hsrc.
  change (BlogSync.session provided n)
    with (bind (BlogSync.getQuote provided {| BlogSync.quote := None |})
            (fun this => BlogSync.clicks provided n this)).
  rewrite runState_bind.
  pose proof (sync_getQuote_provided {| BlogSync.quote := None |} src Hsrc)
    as H1.
  unfold evalState, execState.
  destruct (runState (BlogSync.getQuote provided {| BlogSync.quote := None |})
              src) as [this1 src1].
  destruct H1 as (Hq1 & Hd1 & Hu1). cbn [fst snd].
  assert (Hsrc1 : uniform src1).
  { intros i. rewrite Hu1. apply Hsrc. }
  pose proof (sync_clicks_provided n this1 src1 Hsrc1 Hq1) as H2.
  destruct (runState (BlogSync.clicks provided n this1) src1)
    as [this2 src2].
  destruct H2 as (Hq2 & Hd2 & Hu2).
  repeat split; trivial; [lia | congruence].
Qed.

End SyncEndToEnd.

Lemma sync_application_shows_member_witness :
  test_QUOTE_DATA <> [] /\
  Z.of_nat (List.length test_QUOTE_DATA) <= 2 ^ 32 - 1 /\
  uniform (constant_source almost_one) /\
  let '(this, src') :=
    runState
      (BlogSync.session
         (QuoteServiceOf.local
            {| Local.randomNumberService := theRandomNumberService;
               Local.allQuotes := test_QUOTE_DATA |}) 2)
      (constant_source almost_one) in
  (exists q, BlogSync.quote this = Some q /\ In q test_QUOTE_DATA)
  /\ drawn src' = (drawn (constant_source almost_one) + 1 + 2)%nat
  /\ upcoming src' = upcoming (constant_source almost_one).
Proof.
  assert (H1 : test_QUOTE_DATA <> []) by discriminate.
  assert (H2 : Z.of_nat (List.length test_QUOTE_DATA) <= 2 ^ 32 - 1)
    by (vm_compute; discriminate).
  assert (H3 : uniform (constant_source almost_one))
    by (intros n; vm_compute; reflexivity).
  split; [exact H1|]. split; [exact H2|]. split; [exact H3|].
  exact (sync_application_shows_member test_QUOTE_DATA H1 H2 2
           (constant_source almost_one) H3).
Defined.

Lemma async_clicks_mocked
  (respond : Http.Request -> Rx.Observable Http.Response) (n : nat) :
  forall (this : BlogAsync.QuoteComponent) (connections : list Http.Request),
    execState
      (BlogAsync.clicks (QuoteServiceOf.remote (Remote.mocked respond)) n this)
      connections
    = connections ++ repeat quote_request n.
Proof.
  induction n as [| k IH]; intros this connections.
  - simpl. unfold execState. simpl. now rewrite app_nil_r.
  - change (BlogAsync.clicks (QuoteServiceOf.remote (Remote.mocked respond))
              (S k) this)
      with (bind
              (BlogAsync.getQuote
                 (QuoteServiceOf.remote (Remote.mocked respond)) this)
              (fun this' =>
                 BlogAsync.clicks
                   (QuoteServiceOf.remote (Remote.mocked respond)) k this')).
    rewrite execState_bind, IH.
    change (execState
              (BlogAsync.getQuote
                 (QuoteServiceOf.remote (Remote.mocked respond)) this)
              connections)
      with (connections ++ [quote_request]).
    rewrite <- app_assoc. reflexivity.
Qed.

(** X9. With the remote quote service behind it, the component issues one
    HTTP request when it is constructed and one per click, each the same GET
    request for a random quote: after construction and [n] clicks the backend
    has seen exactly [1 + n] such requests, and nothing else; no result is
    cached. *)
Theorem async_application_requests
  (respond : Http.Request -> Rx.Observable Http.Response) (n : nat)
  (connections : list Http.Request) :
  execState
    (BlogAsync.session (QuoteServiceOf.remote (Remote.mocked respond)) n)
    connections
  = connections ++ repeat quote_request (1 + n).
Proof.
  change (BlogAsync.session (QuoteServiceOf.remote (Remote.mocked respond)) n)
    with (bind
            (BlogAsync.constructor
               (QuoteServiceOf.remote (Remote.mocked respond)))
            (fun this =>
               BlogAsync.clicks
                 (QuoteServiceOf.remote (Remote.mocked respond)) n this)).
  rewrite execState_bind, async_clicks_mocked.
  change (execState
            (BlogAsync.constructor
               (QuoteServiceOf.remote (Remote.mocked respond))) connections)
    with (connections ++ [quote_request]).
  rewrite <- app_assoc. reflexivity.
Qed.

(* ===================================================================== *)
(** * More about the application's QuoteComponent *)
(* ===================================================================== *)

Lemma last_call_snoc (call c : QuoteServiceApi.Call)
  (calls : list QuoteServiceApi.Call) :
  forall base,
    last_call call (calls ++ [c]) base
    = match c, call with
      | QuoteServiceApi.GetRandomQuote, QuoteServiceApi.GetRandomQuote
      | QuoteServiceApi.GetRemoteQuote, QuoteServiceApi.GetRemoteQuote =>
          Some (base + List.length calls)%nat
      | _, _ => last_call call calls base
      end.
Proof.
  induction calls as [| c0 later IH]; intros base.
  - simpl. rewrite Nat.add_0_r. destruct c, call; reflexivity.
  - simpl. rewrite IH.
    replace (S base + List.length later)%nat
      with (base + S (List.length later))%nat by lia.
    destruct c, call; reflexivity.
Qed.

Section Latest.

Variable randomAnswer : nat -> option IQuote.
Variable remoteAnswer : nat -> Rx.Observable IQuote.

Local Notation "'spied'" := (QuoteServiceApi.spy randomAnswer remoteAnswer).

Lemma handle_shows_latest (click : App.Click) (this : App.QuoteComponent)
  (calls : list QuoteServiceApi.Call) :
  shows_latest randomAnswer remoteAnswer this calls ->
  shows_latest randomAnswer remoteAnswer (evalState (App.handle spied click this) calls)
    (execState (App.handle spied click this) calls).
Proof.
  intros [(p & Hp & Hq) (p' & Hp' & Ht & Ha)].
  destruct click; unfold evalState, execState; cbn [App.handle].
  - rewrite getRandomQuote_run. cbn [fst snd]. split.
    + exists (List.length calls). rewrite last_call_snoc. split; reflexivity.
    + exists p'. rewrite last_call_snoc. repeat split; assumption.
  - rewrite getRemoteQuote_run. cbn [fst snd]. split.
    + exists p. rewrite last_call_snoc. split; assumption.
    + exists (List.length calls). rewrite last_call_snoc.
      repeat split; reflexivity.
Qed.

Lemma handle_all_shows_latest (clicks : list App.Click) :
  forall (this : App.QuoteComponent) (calls : list QuoteServiceApi.Call),
    shows_latest randomAnswer remoteAnswer this calls ->
    shows_latest randomAnswer remoteAnswer (evalState (App.handle_all spied clicks this) calls)
      (execState (App.handle_all spied clicks this) calls).
Proof.
  induction clicks as [| click later IH]; intros this calls H.
  - exact H.
  - change (App.handle_all spied (click :: later) this)
      with (bind (App.handle spied click this)
              (fun this' => App.handle_all spied later this')).
    rewrite evalState_bind, execState_bind.
    apply IH. now apply handle_shows_latest.
Qed.

(** X10. The application's component always shows the latest results: after
    construction and any clicks, [randomQuote] is what the last call of
    [getRandomQuote()] returned, and [remoteText$] and [remoteAttribution$]
    are both made from the observable the last call of [getRemoteQuote()]
    returned; a click on one button leaves the other quote as it is. *)
Theorem app_component_shows_latest (clicks : list App.Click) :
  shows_latest randomAnswer remoteAnswer (evalState (App.session spied clicks) [])
    (execState (App.session spied clicks) []).
Proof.
  change (App.session spied clicks)
    with (bind (App.constructor spied)
            (fun this => App.handle_all spied clicks this)).
  rewrite evalState_bind, execState_bind.
  apply handle_all_shows_latest.
  unfold evalState, execState. rewrite constructor_run. cbn [fst snd].
  split.
  - exists 0%nat. split; reflexivity.
  - exists 1%nat. repeat split; reflexivity.
Qed.


End Latest.

(* ===================================================================== *)
(** * Rounding between two integers *)
(* ===================================================================== *)

(** Rounding a positive value [m * 2^e] that lies between two integers
    [lo <= hi] below 2^53 gives a value between them: an integer is a
    binary64 value, and rounding does not step over one. *)
Lemma binary_round_aux_between (m : positive) (e lo hi : Z) :
  e <= 0 -> 0 <= lo -> hi < 2 ^ 53 ->
  lo * 2 ^ (- e) <= Zpos m <= hi * 2 ^ (- e) ->
  (lo = 0 /\
   binary_round_aux prec emax false (Zpos m) e loc_Exact = S754_zero false)
  \/ exists m' e',
       binary_round_aux prec emax false (Zpos m) e loc_Exact
         = S754_finite false m' e'
       /\ e' <= 0 /\ lo * 2 ^ (- e') <= Zpos m' <= hi * 2 ^ (- e').
Proof.
  intros He Hlo Hhi [Hlow Hupp].
  unfold binary_round_aux, shr_fexp.
  rewrite !fexp_binary64.
  set (d := Zdigits2 (Zpos m)).
  pose proof (Zdigits2_bounds (Zpos m) ltac:(lia)) as Hd. fold d in Hd.
  set (n1 := Z.max (d + e - 53) (-1074) - e).
  pose proof (shr_shifted (Zpos m) e n1 ltac:(lia)) as S1.
  destruct (shr (shr_record_of_loc (Zpos m) loc_Exact) e n1) as [mrs1 e1].
  destruct S1 as (He1 & [Hm1 Hr1] & Hn1).
  pose proof (round_nearest_even_cases mrs1) as Hrne. simpl in Hrne.
  set (m2 := round_nearest_even (shr_m mrs1) (loc_of_shr_record mrs1)) in *.
  set (sh := Z.max n1 0) in *.
  assert (Hsh : 0 <= sh) by (clear; unfold sh; lia).
  pose proof (pow2_pos (- e) ltac:(lia)) as Hpe.
  assert (HdE : d + e <= 53).
  { assert (Hlt : 2 ^ (d - 1) < 2 ^ (53 - e)).
    { replace (53 - e) with (53 + - e) by lia. rewrite Z.pow_add_r by lia.
      apply Z.le_lt_trans with (Zpos m); [apply Hd|].
      apply Z.le_lt_trans with (hi * 2 ^ (- e)); [exact Hupp|].
      apply Z.mul_lt_mono_pos_r; assumption. }
    apply pow2_lt_inv in Hlt; [|clear - He; lia]. clear - Hlt. lia. }
  set (K := - e1).
  assert (HK : 0 <= K) by (clear - He1 HdE He; unfold K, sh, n1 in *; lia).
  assert (Hk : - e = K + sh) by (clear - He1; unfold K; lia).
  pose proof (pow2_pos K HK) as HpK. pose proof (pow2_pos sh Hsh) as Hpsh.
  rewrite Hk, Z.pow_add_r in Hlow, Hupp by assumption.
  assert (Hq : lo * 2 ^ K <= Zpos m / 2 ^ sh <= hi * 2 ^ K).
  { split.
    - apply Z.div_le_lower_bound; [exact Hpsh|].
      rewrite Z.mul_comm. rewrite <- Z.mul_assoc. exact Hlow.
    - apply Z.div_le_upper_bound; [exact Hpsh|].
      rewrite Z.mul_comm. rewrite <- Z.mul_assoc. exact Hupp. }
  assert (Hm2 : lo * 2 ^ K <= m2 <= hi * 2 ^ K).
  { destruct Hrne as [-> | [-> Hr]]; rewrite Hm1; [exact Hq|].
    destruct (Hr1 Hr) as [Hsh' Hhalf]. split; [clear - Hq; lia|].
    destruct (Z.eq_dec (Zpos m / 2 ^ sh) (hi * 2 ^ K)) as [Heq | Hne];
      [exfalso | clear - Hq Hne; lia].
    pose proof (Z.div_mod (Zpos m) (2 ^ sh) ltac:(clear - Hpsh; lia)) as Hdm.
    pose proof (pow2_pos (sh - 1) ltac:(clear - Hsh'; lia)) as HpP.
    rewrite Heq in Hdm.
    clear - Hdm Hhalf HpP Hupp. lia. }
  rewrite fexp_binary64.
  set (d2 := Zdigits2 m2).
  set (n2 := Z.max (d2 + e1 - 53) (-1074) - e1).
  assert (Hm2nn : 0 <= m2).
  { apply Z.le_trans with (lo * 2 ^ K); [|apply Hm2].
    apply Z.mul_nonneg_nonneg; [exact Hlo | clear - HpK; lia]. }
  pose proof (shr_shifted m2 e1 n2 Hm2nn) as S2.
  destruct (shr (shr_record_of_loc m2 loc_Exact) e1 n2) as [mrs2 e2].
  destruct S2 as (He2 & [Hm3 _] & _).
  set (sh2 := Z.max n2 0) in *.
  assert (Hsh2 : 0 <= sh2) by (clear; unfold sh2; lia).
  pose proof (pow2_pos sh2 Hsh2) as Hp2.
  assert (Hbounds : 0 < m2 -> e2 <= 0 /\ K = - e2 + sh2).
  { intros Hpos2.
    pose proof (Zdigits2_bounds m2 Hpos2) as Hd2. fold d2 in Hd2.
    assert (Hd2E : d2 + e1 <= 53).
    { assert (Hlt : 2 ^ (d2 - 1) < 2 ^ (53 + K)).
      { rewrite Z.pow_add_r by (clear - HK; lia).
        apply Z.le_lt_trans with m2; [apply Hd2|].
        apply Z.le_lt_trans with (hi * 2 ^ K); [apply Hm2|].
        apply Z.mul_lt_mono_pos_r; assumption. }
      apply pow2_lt_inv in Hlt; [|clear - HK; lia].
      clear - Hlt. unfold K in Hlt. lia. }
    split.
    - clear - He2 Hd2E HK. unfold sh2, n2, K in *. lia.
    - clear - He2. unfold K. lia. }
  destruct (shr_m mrs2) as [| m3 | m3] eqn:E3.
  - left. split; [|reflexivity].
    destruct (Z.eq_dec m2 0) as [Hz | Hnz].
    + rewrite Hz in Hm2. clear - Hm2 HpK Hlo. nia.
    + destruct (Hbounds ltac:(clear - Hm2nn Hnz; lia)) as [He2' HKs].
      assert (Hl3 : lo * 2 ^ (- e2) <= m2 / 2 ^ sh2).
      { apply Z.div_le_lower_bound; [exact Hp2|].
        replace (2 ^ sh2 * (lo * 2 ^ (- e2))) with (lo * 2 ^ K);
          [apply Hm2|].
        rewrite HKs, Z.pow_add_r by (clear - He2' Hsh2; lia). ring. }
      rewrite <- Hm3 in Hl3.
      pose proof (pow2_pos (- e2) ltac:(clear - He2'; lia)) as Hpe2.
      clear - Hl3 Hpe2 Hlo. nia.
  - right. exists m3, e2.
    assert (Hpos2 : 0 < m2).
    { destruct (Z.eq_dec m2 0) as [Hz | Hnz]; [|clear - Hm2nn Hnz; lia].
      rewrite Hz, Z.div_0_l in Hm3; clear - Hm3 Hp2; lia. }
    destruct (Hbounds Hpos2) as [He2' HKs].
    replace (e2 <=? emax - prec) with true
      by (symmetry; apply Z.leb_le; clear - He2'; unfold emax, prec; lia).
    assert (HKp : 2 ^ sh2 * 2 ^ (- e2) = 2 ^ K).
    { rewrite HKs, Z.pow_add_r by (clear - He2' Hsh2; lia). ring. }
    repeat split; trivial; rewrite Hm3.
    + apply Z.div_le_lower_bound; [exact Hp2|].
      replace (2 ^ sh2 * (lo * 2 ^ (- e2))) with (lo * 2 ^ K);
        [apply Hm2 | rewrite <- HKp; ring].
    + apply Z.div_le_upper_bound; [exact Hp2|].
      replace (2 ^ sh2 * (hi * 2 ^ (- e2))) with (hi * 2 ^ K);
        [apply Hm2 | rewrite <- HKp; ring].
  - exfalso.
    pose proof (Z.div_pos m2 (2 ^ sh2) Hm2nn Hp2) as Hnn.
    clear - Hnn Hm3. lia.
Qed.

Lemma shl_align_fst (mx : positive) (ex ez : Z) :
  ez <= ex ->
  Zpos (fst (shl_align mx ex ez)) = Zpos mx * 2 ^ (ex - ez).
Proof.
  intros Hle. unfold shl_align.
  destruct (ez - ex) as [| p | p] eqn:E; try lia.
  - replace (ex - ez) with 0 by lia. simpl fst. rewrite Z.pow_0_r. lia.
  - simpl fst. destruct (iter_xO mx p) as [-> _].
    replace (ex - ez) with (Zpos p) by lia. reflexivity.
Qed.

Lemma shl_align_value (mx : positive) (ex ex' : Z) :
  snd (shl_align mx ex ex') <= ex
  /\ Zpos (fst (shl_align mx ex ex'))
     = Zpos mx * 2 ^ (ex - snd (shl_align mx ex ex')).
Proof.
  unfold shl_align.
  destruct (ex' - ex) as [| p | p] eqn:E; simpl fst; simpl snd.
  - rewrite Z.sub_diag, Z.pow_0_r. lia.
  - rewrite Z.sub_diag, Z.pow_0_r. lia.
  - destruct (iter_xO mx p) as [-> _].
    replace (ex - ex') with (Zpos p) by lia. lia.
Qed.

Lemma binary_round_between (M : positive) (ez lo hi : Z) :
  ez <= 0 -> 0 <= lo -> hi < 2 ^ 53 ->
  lo * 2 ^ (- ez) <= Zpos M <= hi * 2 ^ (- ez) ->
  between lo hi (binary_round prec emax false M ez).
Proof.
  intros Hez Hlo Hhi [Hl Hu]. unfold binary_round.
  pose proof (shl_align_value M ez
                (fexp prec emax (Zpos (digits2_pos M) + ez))) as Hv.
  destruct (shl_align M ez (fexp prec emax (Zpos (digits2_pos M) + ez)))
    as [mz ez'].
  simpl fst in Hv. simpl snd in Hv. destruct Hv as [Hle Hmz].
  pose proof (pow2_pos (ez - ez') ltac:(lia)) as Hp.
  assert (Hpow : 2 ^ (- ez') = 2 ^ (- ez) * 2 ^ (ez - ez')).
  { rewrite <- Z.pow_add_r by lia. f_equal. lia. }
  destruct (binary_round_aux_between mz ez' lo hi ltac:(lia) Hlo Hhi)
    as [[Hz Hr] | (m' & e' & Hr & He' & Hb)].
  - rewrite Hmz, Hpow. split.
    + rewrite Z.mul_assoc. apply Z.mul_le_mono_nonneg_r; lia.
    + rewrite Z.mul_assoc. apply Z.mul_le_mono_nonneg_r; lia.
  - left. split; [|exists false; exact Hr].
    pose proof (pow2_pos (- ez) ltac:(lia)). nia.
  - right. exists m', e'. auto.
Qed.

(** [r * d] for [r] in [0, 1) does not exceed [d]. *)
Lemma mul_between (r x : number) (d : Z) :
  unit_interval r = true -> 0 <= d < 2 ^ 53 ->
  between d d x -> between 0 d (mul r x).
Proof.
  intros Hr Hd Hx.
  destruct (unit_interval_cases r Hr) as [[s ->] | (m & e & -> & He & Hm)];
    destruct Hx as [[Hd0 [sx ->]] | (mx & ex & -> & Hex & Hbx)].
  - left. split; [lia | simpl; eauto].
  - left. split; [lia | simpl; eauto].
  - left. split; [lia | simpl; eauto].
  - cbn [mul SFmul xorb].
    pose proof (pow2_pos (- ex) ltac:(lia)) as Hpx.
    pose proof (pow2_pos (- e) ltac:(lia)) as Hpe.
    destruct (binary_round_aux_between (m * mx) (e + ex) 0 d
                ltac:(lia) ltac:(lia) ltac:(lia))
      as [[_ Hz] | (m' & e' & Hz & He' & Hb)].
    + split; [lia|]. rewrite Pos2Z.inj_mul.
      replace (- (e + ex)) with (- e + - ex) by lia.
      rewrite Z.pow_add_r by lia.
      assert (Hp : 2 ^ 53 <= 2 ^ (- e)) by (apply Z.pow_le_mono_r; lia).
      replace (Zpos mx) with (d * 2 ^ (- ex)) by lia.
      replace (d * (2 ^ (- e) * 2 ^ (- ex)))
        with (2 ^ (- e) * (d * 2 ^ (- ex))) by ring.
      apply Z.mul_le_mono_nonneg_r; lia.
    + left. split; [lia | exists false; exact Hz].
    + right. exists m', e'. auto.
Qed.

(** The sign of a rounded value is the sign it is given; the mantissa and
    the exponent do not depend on it. *)
Lemma binary_round_sign (s : bool) (M : positive) (e : Z) :
  binary_round prec emax s M e
  = match binary_round prec emax false M e with
    | S754_zero _ => S754_zero s
    | S754_infinity _ => S754_infinity s
    | S754_nan => S754_nan
    | S754_finite _ m e' => S754_finite s m e'
    end.
Proof.
  unfold binary_round.
  destruct (shl_align M e (fexp prec emax (Zpos (digits2_pos M) + e)))
    as [mz ez].
  unfold binary_round_aux.
  destruct (shr_fexp prec emax (Zpos mz) ez loc_Exact) as [mrs' e'].
  destruct (shr_fexp prec emax
              (round_nearest_even (shr_m mrs') (loc_of_shr_record mrs'))
              e' loc_Exact) as [mrs'' e''].
  destruct (shr_m mrs''); try reflexivity.
  destruct (e'' <=? emax - prec); reflexivity.
Qed.

Lemma between_sbetween (lo hi : Z) (x : number) :
  between lo hi x -> sbetween lo hi x.
Proof.
  intros [H | (m & e & H)]; [left; exact H | right; exists false, m, e; exact H].
Qed.

Lemma sbetween_weaken (lo hi lo' hi' : Z) (x : number) :
  lo' <= lo -> hi <= hi' -> sbetween lo hi x -> sbetween lo' hi' x.
Proof.
  intros Hl Hh [[H Hz] | (s & m & e & -> & He & Hb)].
  - left. split; [lia | exact Hz].
  - right. exists s, m, e. repeat split; trivial.
    + pose proof (pow2_pos (- e) ltac:(lia)). nia.
    + pose proof (pow2_pos (- e) ltac:(lia)). nia.
Qed.

(** Normalizing the integer mantissa [M] at exponent [ez], when the value
    [M * 2^ez] lies between two integers of magnitude below 2^53. *)
Lemma binary_normalize_sbetween (M ez lo hi : Z) :
  ez <= 0 -> - 2 ^ 53 < lo -> hi < 2 ^ 53 ->
  lo * 2 ^ (- ez) <= M <= hi * 2 ^ (- ez) ->
  sbetween lo hi (binary_normalize prec emax M ez false).
Proof.
  intros Hez Hlo Hhi [Hl Hu].
  pose proof (pow2_pos (- ez) ltac:(lia)) as Hp.
  destruct M as [| P | P]; cbn [binary_normalize].
  - left. split; [nia | exists false; reflexivity].
  - apply sbetween_weaken with (lo := Z.max lo 0) (hi := hi); try lia.
    apply between_sbetween, binary_round_between; lia.
  - rewrite binary_round_sign.
    assert (Hb : between (Z.max (- hi) 0) (- lo)
                   (binary_round prec emax false P ez))
      by (apply binary_round_between; lia).
    destruct Hb as [[H0 [s ->]] | (m & e & -> & He & Hb)].
    + left. split; [lia | exists true; reflexivity].
    + right. exists true, m, e. repeat split; trivial; cbn [cond_Zopp].
      * pose proof (pow2_pos (- e) ltac:(lia)). nia.
      * pose proof (pow2_pos (- e) ltac:(lia)).
        destruct (Z.max_spec (- hi) 0) as [[_ E] | [_ E]];
          rewrite E in Hb; nia.
Qed.

Lemma of_Z_sbetween (z : Z) :
  - 2 ^ 53 < z < 2 ^ 53 -> sbetween z z (of_Z z).
Proof.
  intros Hz. apply binary_normalize_sbetween; lia.
Qed.

Lemma cond_Zopp_mul (s : bool) (a b : Z) :
  cond_Zopp s (a * b) = cond_Zopp s a * b.
Proof. destruct s; simpl; ring. Qed.

(** The aligned signed mantissa of an integer-valued operand. *)
Lemma aligned_mantissa (s : bool) (m : positive) (e ez a : Z) :
  ez <= e -> e <= 0 ->
  cond_Zopp s (Zpos m) = a * 2 ^ (- e) ->
  cond_Zopp s (Zpos (fst (shl_align m e ez))) = a * 2 ^ (- ez).
Proof.
  intros Hle He Hm.
  rewrite shl_align_fst, cond_Zopp_mul, Hm by exact Hle.
  rewrite <- Z.mul_assoc, <- Z.pow_add_r by lia.
  do 2 f_equal. lia.
Qed.

(** [max - min] on integers is exact, as long as the difference is below
    2^53. *)
Lemma sub_sbetween (a b : Z) (x y : number) :
  b <= a -> a - b < 2 ^ 53 ->
  sbetween a a x -> sbetween b b y ->
  between (a - b) (a - b) (sub x y).
Proof.
  intros Hab Hd Hx Hy.
  destruct Hy as [[Hb0 [sy ->]] | (sy & my & ey & -> & Hey & Hby)].
  - assert (b = 0) by lia. subst b. rewrite Z.sub_0_r.
    destruct Hx as [[Ha0 [sx ->]] | (sx & mx & ex & -> & Hex & Hbx)].
    + left. split; [lia|]. destruct sx, sy; simpl; eauto.
    + right. exists mx, ex.
      pose proof (pow2_pos (- ex) ltac:(lia)).
      destruct sx; cbn [cond_Zopp] in Hbx; [exfalso; nia|].
      simpl. auto.
  - pose proof (pow2_pos (- ey) ltac:(lia)) as Hpy.
    destruct Hx as [[Ha0 [sx ->]] | (sx & mx & ex & -> & Hex & Hbx)].
    + assert (a = 0) by lia. subst a.
      right. exists my, ey.
      destruct sy; cbn [cond_Zopp] in Hby; [|exfalso; nia].
      simpl. repeat split; trivial; nia.
    + unfold sub, SFsub.
      set (ez := Z.min ex ey).
      assert (Hez : ez <= 0) by (unfold ez; lia).
      rewrite (aligned_mantissa sx mx ex ez a),
              (aligned_mantissa sy my ey ez b) by (unfold ez; lia).
      pose proof (pow2_pos (- ez) ltac:(lia)) as Hp.
      replace (a * 2 ^ (- ez) - b * 2 ^ (- ez)) with ((a - b) * 2 ^ (- ez))
        by ring.
      destruct ((a - b) * 2 ^ (- ez)) as [| M | M] eqn:EM.
      * left. split; [nia | exists false; reflexivity].
      * apply binary_round_between; lia.
      * exfalso. assert (0 <= (a - b) * 2 ^ (- ez)) by nia. lia.
Qed.

(** Adding an integer [b] of either sign to a value of [0, d] gives a value
    of [b, b + d]. *)
Lemma add_sbetween (p y : number) (b d : Z) :
  - 2 ^ 53 < b -> 0 <= d -> b + d < 2 ^ 53 ->
  between 0 d p -> sbetween b b y ->
  sbetween b (b + d) (add p y).
Proof.
  intros Hb Hd Hbd Hp Hy.
  destruct Hy as [[Hb0 [sy ->]] | (sy & my & ey & -> & Hey & Hby)].
  - assert (b = 0) by lia. subst b. rewrite Z.add_0_l.
    destruct Hp as [[_ [sp ->]] | (mp & ep & -> & Hep & Hbp)].
    + left. split; [lia|]. destruct sp, sy; simpl; eauto.
    + right. exists false, mp, ep. simpl. auto.
  - destruct Hp as [[_ [sp ->]] | (mp & ep & -> & Hep & Hbp)].
    + apply sbetween_weaken with (lo := b) (hi := b); try lia.
      right. exists sy, my, ey. simpl. auto.
    + unfold add, SFadd.
      set (ez := Z.min ep ey).
      assert (Hez : ez <= 0) by (unfold ez; lia).
      rewrite (aligned_mantissa sy my ey ez b) by (unfold ez; lia).
      cbn [cond_Zopp].
      rewrite (shl_align_fst mp ep ez) by (unfold ez; lia).
      pose proof (pow2_pos (ep - ez) ltac:(unfold ez; lia)) as Hpp.
      pose proof (pow2_pos (- ez) ltac:(lia)) as Hpz.
      assert (Ep : 2 ^ (- ep) * 2 ^ (ep - ez) = 2 ^ (- ez)).
      { rewrite <- Z.pow_add_r by (unfold ez; lia). f_equal. lia. }
      assert (Hpu : Zpos mp * 2 ^ (ep - ez) <= d * 2 ^ (- ez)).
      { rewrite <- Ep, Z.mul_assoc.
        apply Z.mul_le_mono_nonneg_r; lia. }
      apply binary_normalize_sbetween; lia.
Qed.

Lemma to_Z_signed (s : bool) (m : positive) (e z : Z) :
  e <= 0 -> Zpos m = z * 2 ^ (- e) ->
  to_Z (S754_finite s m e) = Some (cond_Zopp s z).
Proof.
  intros He Hm. unfold to_Z.
  pose proof (pow2_pos (- e) ltac:(lia)) as Hp.
  assert (Hk : Z.shiftr (Zpos m) (- e) = z).
  { rewrite Z.shiftr_div_pow2, Hm by lia. apply Z.div_mul. lia. }
  rewrite Hk, Z.shiftl_mul_pow2, <- Hm, Z.eqb_refl by lia.
  reflexivity.
Qed.

(** An integer of magnitude below 2^53 is read back from its binary64
    value. *)
Lemma to_Z_normalize (z : Z) (s : bool) :
  - 2 ^ 53 < z < 2 ^ 53 ->
  to_Z (binary_normalize prec emax z 0 s) = Some z.
Proof.
  intros Hz. destruct z as [| p | p]; cbn [binary_normalize].
  - reflexivity.
  - apply (to_Z_of_Z (Zpos p)). lia.
  - rewrite binary_round_sign.
    destruct (of_Z_exact (Zpos p)) as (m & e & Hr & He & Hm); [lia|].
    unfold of_Z in Hr. cbn [binary_normalize] in Hr. rewrite Hr.
    apply (to_Z_signed true m e (Zpos p) He Hm).
Qed.

(** [Math.floor] of a value between two integers is an integer between
    them. *)
Lemma floor_sbetween (x : number) (lo hi : Z) :
  - 2 ^ 53 < lo -> hi < 2 ^ 53 -> sbetween lo hi x ->
  exists k, to_Z (Math_floor x) = Some k /\ lo <= k <= hi.
Proof.
  intros Hlo Hhi [[H0 [s ->]] | (s & m & e & -> & He & Hb)].
  - exists 0. split; [reflexivity | exact H0].
  - unfold Math_floor.
    pose proof (pow2_pos (- e) ltac:(lia)) as Hp.
    destruct (Z.leb_spec 0 e) as [Hz | Hneg].
    + assert (e = 0) by lia. subst e.
      change (2 ^ (- 0)) with 1 in Hb. rewrite !Z.mul_1_r in Hb.
      exists (cond_Zopp s (Zpos m)). split; [|exact Hb].
      apply to_Z_signed; [lia|]. change (2 ^ (- 0)) with 1. lia.
    + set (z := Z.shiftr (cond_Zopp s (Zpos m)) (- e)).
      assert (Hzb : lo <= z <= hi).
      { unfold z. rewrite Z.shiftr_div_pow2 by lia. split.
        - apply Z.div_le_lower_bound; lia.
        - apply Z.div_le_upper_bound; lia. }
      exists z. split; [|exact Hzb].
      apply to_Z_normalize. lia.
Qed.

(** X12. For integer bounds [min <= max] of magnitude below 2^53, with
    [max - min] below 2^53, and every random source with values in [0, 1),
    [pick(min, max)] is an integer [k] with [min <= k <= max]: rounding can
    carry the result up to [max], but never past it and never below
    [min]. *)
Theorem pick_within_bounds (min max : Z) (src : RandomSource) :
  - 2 ^ 53 < min -> min <= max -> max < 2 ^ 53 -> max - min < 2 ^ 53 ->
  uniform src ->
  exists k : Z,
    to_Z (evalState (RandomNumberService.pick (of_Z min) (of_Z max)) src)
    = Some k
    /\ min <= k <= max.
Proof.
  intros Hmin Hmm Hmax Hd Hsrc. unfold evalState. rewrite pick_run. cbn [fst].
  assert (Hk : exists k,
             to_Z (Math_floor
                     (add (mul (upcoming src (drawn src))
                             (sub (of_Z max) (of_Z min))) (of_Z min)))
             = Some k /\ min <= k <= min + (max - min)).
  { apply floor_sbetween; try lia.
    apply add_sbetween; try lia; [|apply of_Z_sbetween; lia].
    apply mul_between; [apply Hsrc | lia |].
    apply sub_sbetween; try lia; apply of_Z_sbetween; lia. }
  destruct Hk as (k & Hk & Hb). exists k. split; [exact Hk | lia].
Qed.

Lemma pick_within_bounds_witness :
  - 2 ^ 53 < -3 /\ -3 <= 4 /\ 4 < 2 ^ 53 /\ 4 - -3 < 2 ^ 53 /\
  uniform (constant_source almost_one) /\
  exists k : Z,
    to_Z (evalState (RandomNumberService.pick (of_Z (-3)) (of_Z 4))
            (constant_source almost_one)) = Some k
    /\ -3 <= k <= 4.
Proof.
  assert (H1 : - 2 ^ 53 < -3) by reflexivity.
  assert (H2 : -3 <= 4) by discriminate.
  assert (H3 : 4 < 2 ^ 53) by reflexivity.
  assert (H4 : 4 - -3 < 2 ^ 53) by reflexivity.
  assert (H5 : uniform (constant_source almost_one))
    by (intros n; vm_compute; reflexivity).
  split; [exact H1|]. split; [exact H2|]. split; [exact H3|].
  split; [exact H4|]. split; [exact H5|].
  exact (pick_within_bounds (-3) 4 (constant_source almost_one)
           H1 H2 H3 H4 H5).
Defined.
